(** * solve.js: exact Lagrange interpolation at zero over base-coded points

    A shallow embedding of [solve.js].  JavaScript [BigInt] values are
    integers [Z]; [/] and [%] on them are truncating ([Z.quot], [Z.rem]) and
    throw a [RangeError] on a zero divisor.  Strings are sequences of code
    units below 256 (Latin-1), held in [string].  A [throw] is the [Err]
    branch of the [result] monad. *)

From Stdlib Require Import ZArith Lia List Bool Ascii String DecimalString.
From Stdlib Require Import Znumtheory QArith Qcanon Field.
From Stdlib Require Import Permutation Sorted.
Import ListNotations.

Local Set Warnings "-register-all,-notation-for-abbreviation".

Local Open Scope string_scope.
Local Open Scope list_scope.
Local Open Scope Z_scope.

(* ================================================================= *)
(** ** Exceptions and the error monad *)

(** The exceptions the script can raise: its own [new Error(msg)], and
    those of the built-in operations it calls. *)
Inductive exn : Type :=
| Error (message : string)
| RangeError (message : string)
| SyntaxError (message : string)
| TypeError (message : string).

Inductive result (A : Type) : Type :=
| OK (a : A)
| Err (e : exn).
Arguments OK {A} a.
Arguments Err {A} e.

Definition bind {A B : Type} (m : result A) (k : A -> result B) : result B :=
  match m with
  | OK a => k a
  | Err e => Err e
  end.

Declare Scope result_scope.
Delimit Scope result_scope with result.
Notation "x <- m ;; k" := (bind m (fun x => k))
  (at level 61, m at next level, right associativity) : result_scope.
Local Open Scope result_scope.

Definition message_of (e : exn) : string :=
  match e with
  | Error m | RangeError m | SyntaxError m | TypeError m => m
  end.

(* ================================================================= *)
(** ** BigInt primitives *)

(** [a / b] on BigInt. *)
Definition BigInt_div (a b : Z) : result Z :=
  if b =? 0 then Err (RangeError "Division by zero") else OK (Z.quot a b).

(** [a % b] on BigInt. *)
Definition BigInt_rem (a b : Z) : result Z :=
  if b =? 0 then Err (RangeError "Division by zero") else OK (Z.rem a b).

(** [n.toString()] on BigInt: decimal, with a leading [-] when negative. *)
Definition BigInt_toString (n : Z) : string :=
  NilZero.string_of_int (Z.to_int n).

(* ================================================================= *)
(** ** bigGcd *)

(** The [while (b !== 0n)] loop.  [fuel] bounds the number of iterations;
    [bigGcd_fuel] below is always enough ([bigGcd_loop_enough]). *)
Fixpoint bigGcd_loop (fuel : nat) (a b : Z) : Z :=
  match fuel with
  | O => a
  | S fuel' =>
      if b =? 0 then a
      else
        let t := Z.rem a b in
        bigGcd_loop fuel' b t
  end.

(** Two iterations at least halve [b], so twice its bit length, plus one
    for the final test, bounds the loop. *)
Definition bigGcd_fuel (b : Z) : nat :=
  S (2 * S (Z.to_nat (Z.log2 b))).

Definition bigGcd (a b : Z) : Z :=
  let a := if a <? 0 then - a else a in
  let b := if b <? 0 then - b else b in
  bigGcd_loop (bigGcd_fuel b) a b.

(* ================================================================= *)
(** ** bigPow *)

(** The [while (e > 0n)] loop of square-and-multiply.  [e & 1n] is falsy
    exactly when it is [0n]; [e >>= 1n] halves [e].  [fuel] bounds the
    number of iterations. *)
Fixpoint bigPow_loop (fuel : nat) (b e res : Z) : Z :=
  match fuel with
  | O => res
  | S fuel' =>
      if e >? 0 then
        let res := if Z.land e 1 =? 0 then res else res * b in
        bigPow_loop fuel' (b * b) (Z.shiftr e 1) res
      else res
  end.

(** One iteration per bit of [e], and one more test. *)
Definition bigPow_fuel (e : Z) : nat := S (S (Z.to_nat (Z.log2 e))).

(** [bigPow(base, exp)], for arguments that are BigInts or integral
    Numbers, which [BigInt(...)] leaves as they are. *)
Definition bigPow (base exp : Z) : Z :=
  let b := base in
  let e := exp in
  let res := 1 in
  bigPow_loop (bigPow_fuel e) b e res.

(* ================================================================= *)
(** ** Fraction *)

Record Fraction : Type := mkFraction { num : Z; den : Z }.

(** [new Fraction(num, den)]. *)
Definition Fraction_new (num0 den0 : Z) : result Fraction :=
  if den0 =? 0 then Err (Error "Denominator zero")
  else
    let '(num1, den1) :=
      if den0 <? 0 then (- num0, - den0) else (num0, den0) in
    let g := bigGcd num1 den1 in
    n <- BigInt_div num1 g ;;
    d <- BigInt_div den1 g ;;
    OK (mkFraction n d).

Definition Fraction_fromBigInt (n : Z) : result Fraction := Fraction_new n 1.

Definition Fraction_add (this other : Fraction) : result Fraction :=
  let n := num this * den other + num other * den this in
  let d := den this * den other in
  Fraction_new n d.

Definition Fraction_sub (this other : Fraction) : result Fraction :=
  let n := num this * den other - num other * den this in
  let d := den this * den other in
  Fraction_new n d.

Definition Fraction_mul (this other : Fraction) : result Fraction :=
  let n := num this * num other in
  let d := den this * den other in
  Fraction_new n d.

Definition Fraction_div (this other : Fraction) : result Fraction :=
  if num other =? 0 then Err (Error "Division by zero fraction")
  else
    let n := num this * den other in
    let d := den this * num other in
    Fraction_new n d.

Definition Fraction_toString (this : Fraction) : string :=
  if den this =? 1 then BigInt_toString (num this)
  else (BigInt_toString (num this) ++ "/" ++ BigInt_toString (den this))%string.

Definition Fraction_toIntegerStringIfExact (this : Fraction) : result string :=
  if den this =? 1 then OK (BigInt_toString (num this))
  else
    r <- BigInt_rem (num this) (den this) ;;
    if r =? 0 then
      q <- BigInt_div (num this) (den this) ;;
      OK (BigInt_toString q)
    else Err (Error ("Result is not integer: " ++ Fraction_toString this)%string).

(** The representation invariant: positive denominator, lowest terms. *)
Definition reduced (f : Fraction) : Prop :=
  0 < den f /\ Z.gcd (Z.abs (num f)) (den f) = 1.

(* ================================================================= *)
(** ** Strings *)

Definition charCode (c : ascii) : Z := Z.of_N (N_of_ascii c).
Definition fromCharCode (z : Z) : ascii := ascii_of_N (Z.to_N z).

(** White space and line terminators that [trim] strips, below 256:
    TAB, LF, VT, FF, CR, SP and NBSP. *)
Definition isWhiteSpace (c : ascii) : bool :=
  let n := charCode c in
  ((9 <=? n) && (n <=? 13)) || (n =? 32) || (n =? 160).

Fixpoint trimStart (s : string) : string :=
  match s with
  | EmptyString => EmptyString
  | String c s' => if isWhiteSpace c then trimStart s' else s
  end.

Fixpoint trimEnd (s : string) : string :=
  match s with
  | EmptyString => EmptyString
  | String c s' =>
      match trimEnd s' with
      | EmptyString => if isWhiteSpace c then EmptyString else String c EmptyString
      | t => String c t
      end
  end.

(** [s.trim()]. *)
Definition trim (s : string) : string := trimEnd (trimStart s).

(** Lower-casing of one code unit below 256: A-Z, and the Latin-1 capitals
    U+00C0 to U+00DE except the multiplication sign U+00D7. *)
Definition lowerChar (c : ascii) : ascii :=
  let n := charCode c in
  if ((65 <=? n) && (n <=? 90))
     || ((192 <=? n) && (n <=? 222) && negb (n =? 215))
  then fromCharCode (n + 32) else c.

(** [s.toLowerCase()]. *)
Fixpoint toLowerCase (s : string) : string :=
  match s with
  | EmptyString => EmptyString
  | String c s' => String (lowerChar c) (toLowerCase s')
  end.

(** Value of an alphanumeric character read as a digit. *)
Definition digitValue (c : ascii) : option Z :=
  let n := charCode c in
  if (48 <=? n) && (n <=? 57) then Some (n - 48)
  else if (97 <=? n) && (n <=? 122) then Some (n - 87)
  else if (65 <=? n) && (n <=? 90) then Some (n - 55)
  else None.

(** A run of digits of radix [r], most significant first, continuing the
    value [acc]; [parseDigits1] asks for at least one digit. *)
Fixpoint parseDigits (r : Z) (s : string) (acc : Z) : option Z :=
  match s with
  | EmptyString => Some acc
  | String c s' =>
      match digitValue c with
      | Some d => if d <? r then parseDigits r s' (acc * r + d) else None
      | None => None
      end
  end.

Definition parseDigits1 (r : Z) (s : string) : option Z :=
  match s with
  | EmptyString => None
  | _ => parseDigits r s 0
  end.

(** The integer literals shared by the StringToNumber and StringToBigInt
    grammars: surrounding white space, then nothing (zero), a radix prefix
    [0x], [0o] or [0b] with its digits, or an optionally signed run of
    decimal digits. *)
Definition parseIntegerLiteral (s : string) : option Z :=
  match trim s with
  | EmptyString => Some 0
  | String "0" (String p t) =>
      if (p =? "x")%char || (p =? "X")%char then parseDigits1 16 t
      else if (p =? "o")%char || (p =? "O")%char then parseDigits1 8 t
      else if (p =? "b")%char || (p =? "B")%char then parseDigits1 2 t
      else parseDigits1 10 (String "0" (String p t))
  | String "+" t => parseDigits1 10 t
  | String "-" t => option_map Z.opp (parseDigits1 10 t)
  | t => parseDigits1 10 t
  end.

(** [Number(s)] on a string, as far as the script looks at it: [Some n]
    when the value is the integer [n], [None] when it is not an integer.
    Literals with a fraction or an exponent part, and [Infinity], are not
    modelled and count as non-integers; integers are taken below 2^53,
    where a double holds them exactly. *)
Definition Number_ofString (s : string) : option Z := parseIntegerLiteral s.

(** [String(n)] for an integral Number (magnitude below 10^21). *)
Definition Number_toString (n : Z) : string := BigInt_toString n.

(** [BigInt(s)] on a string. *)
Definition BigInt_ofString (s : string) : result Z :=
  match parseIntegerLiteral s with
  | Some n => OK n
  | None =>
      Err (SyntaxError ("Cannot convert " ++ s ++ " to a BigInt")%string)
  end.

(* ================================================================= *)
(** ** decodeValueToBigInt *)

(** The [for (let ch of s)] loop with its accumulator. *)
Fixpoint decode_loop (base : Z) (s : string) (acc : Z) : result Z :=
  match s with
  | EmptyString => OK acc
  | String ch s' =>
      let c := charCode ch in
      digit <-
        (if (48 <=? c) && (c <=? 57) then OK (c - 48)
         else if (97 <=? c) && (c <=? 122) then OK (c - 87)
         else Err (Error ("Invalid digit in value: " ++ String ch "")%string)) ;;
      if digit >=? base then
        Err (Error ("Digit " ++ String ch "" ++ " not valid for base "
                      ++ Number_toString base)%string)
      else decode_loop base s' (acc * base + digit)
  end.

Definition decodeValueToBigInt (valueStr baseStr : string) : result Z :=
  match Number_ofString baseStr with
  | Some base =>
      if (base >=? 2) && (base <=? 36) then
        let s := trim valueStr in
        let s := toLowerCase s in
        decode_loop base s 0
      else Err (Error ("Unsupported base: " ++ baseStr)%string)
  | None => Err (Error ("Unsupported base: " ++ baseStr)%string)
  end.

(* ================================================================= *)
(** ** lagrangeAtZero *)

Module Point.
Record t : Type := mk { x : Z; y : Z }.
End Point.

(** [points[i]]; the loops below keep [i] under [points.length]. *)
Definition at_index (points : list Point.t) (i : nat) : Point.t :=
  nth i points (Point.mk 0 0).

(** The inner [for (let j = 0; j < k; j++)] loop, over the indices still
    to visit. *)
Fixpoint lagrange_inner (points : list Point.t) (i : nat) (js : list nat)
    (numerator : Fraction) : result Fraction :=
  match js with
  | [] => OK numerator
  | j :: js' =>
      if Nat.eqb j i then lagrange_inner points i js' numerator
      else
        let negXj := - Point.x (at_index points j) in
        let denom := Point.x (at_index points i) - Point.x (at_index points j) in
        if denom =? 0 then Err (Error "Duplicate x values encountered")
        else
          f <- Fraction_new negXj denom ;;
          numerator' <- Fraction_mul numerator f ;;
          lagrange_inner points i js' numerator'
  end.

(** The outer [for (let i = 0; i < k; i++)] loop; [res] is the script's
    [result]. *)
Fixpoint lagrange_outer (points : list Point.t) (k : nat) (idxs : list nat)
    (res : Fraction) : result Fraction :=
  match idxs with
  | [] => OK res
  | i :: idxs' =>
      numerator <- Fraction_new (Point.y (at_index points i)) 1 ;;
      numerator <- lagrange_inner points i (seq 0 k) numerator ;;
      res' <- Fraction_add res numerator ;;
      lagrange_outer points k idxs' res'
  end.

Definition lagrangeAtZero (points : list Point.t) : result Fraction :=
  let k := List.length points in
  res <- Fraction_new 0 1 ;;
  lagrange_outer points k (seq 0 k) res.

(* ================================================================= *)
(** ** Parsed JSON and the coercions applied to it *)

(** What [JSON.parse] returns.  [JNum] holds an integral number; the
    members of [JObj] are in insertion order, with distinct keys. *)
Inductive json : Type :=
| JNull
| JBool (b : bool)
| JNum (n : Z)
| JStr (s : string)
| JArr (items : list json)
| JObj (members : list (string * json)).

(** [obj[key]] on own properties; [None] is [undefined]. *)
Fixpoint lookup (key : string) (members : list (string * json)) : option json :=
  match members with
  | [] => None
  | (k, v) :: rest => if String.eqb k key then Some v else lookup key rest
  end.

(** [v.key] for a parsed value that is not [null]: only objects own
    string-named properties that the script asks for. *)
Definition member (key : string) (v : json) : option json :=
  match v with
  | JObj members => lookup key members
  | _ => None
  end.

(** [key in v] for an object or array [v], for the keys the script asks
    for ([base], [value]), which no prototype defines. *)
Definition has_member (key : string) (v : json) : bool :=
  match member key v with
  | Some _ => true
  | None => false
  end.

(** [typeof v === 'object' && v] is truthy. *)
Definition isObject (v : json) : bool :=
  match v with
  | JArr _ | JObj _ => true
  | _ => false
  end.

(** [String(v)]; [None] is [undefined]. *)
Fixpoint String_of (v : json) : string :=
  match v with
  | JNull => "null"
  | JBool true => "true"
  | JBool false => "false"
  | JNum n => Number_toString n
  | JStr s => s
  | JArr items =>
      (fix join (l : list json) : string :=
         match l with
         | [] => ""
         | [e] => match e with JNull => "" | _ => String_of e end
         | e :: l' =>
             ((match e with JNull => "" | _ => String_of e end)
                ++ "," ++ join l')%string
         end) items
  | JObj _ => "[object Object]"
  end.

Definition String_ofOpt (v : option json) : string :=
  match v with
  | Some v => String_of v
  | None => "undefined"
  end.

(** [Number(v)], with [None] for a value that is not an integer. *)
Definition Number_of (v : option json) : option Z :=
  match v with
  | None => None
  | Some JNull => Some 0
  | Some (JBool b) => Some (if b then 1 else 0)
  | Some (JNum n) => Some n
  | Some (JStr s) => Number_ofString s
  | Some (JArr items) => Number_ofString (String_of (JArr items))
  | Some (JObj _) => None
  end.

(* ================================================================= *)
(** ** Array.prototype.sort and Object.keys *)

Section Sort.
Context {A : Type} (compareFn : A -> A -> Z).

(** [a] goes before the first element that the comparator puts after it,
    so equal elements keep their order: the sort is stable. *)
Fixpoint insert (a : A) (l : list A) : list A :=
  match l with
  | [] => [a]
  | b :: l' => if compareFn a b <=? 0 then a :: l else b :: insert a l'
  end.

Definition Array_sort (l : list A) : list A := fold_right insert [] l.
End Sort.

(** The array index that a property key denotes, if any: a canonical
    decimal numeral below 2^32 - 1. *)
Definition arrayIndex (key : string) : option Z :=
  match parseDigits1 10 key with
  | Some n =>
      if String.eqb (BigInt_toString n) key && (n <? 2 ^ 32 - 1)
      then Some n else None
  | None => None
  end.

Definition isArrayIndex (key : string) : bool :=
  match arrayIndex key with Some _ => true | None => false end.

Definition compareIndex (a b : string) : Z :=
  match arrayIndex a, arrayIndex b with
  | Some m, Some n => m - n
  | _, _ => 0
  end.

(** [Object.keys(obj)]: array indices in ascending order, then the other
    keys in insertion order. *)
Definition Object_keys (members : list (string * json)) : list string :=
  let keys := map fst members in
  Array_sort compareIndex (filter isArrayIndex keys)
    ++ filter (fun k => negb (isArrayIndex k)) keys.

(* ================================================================= *)
(** ** main *)

Module Entry.
Record t : Type := mk { x : Z; y : Z; rawKey : string }.
End Entry.

(** How a run ends: [console.log] of the secret, [console.error] followed
    by [process.exit(1)], or an exception nobody catches. *)
Inductive outcome : Type :=
| Logged (stdout : string)
| Exited (stderr : string)
| Uncaught (e : exn).

(** What the collection loop does with one key. *)
Inductive visit : Type :=
| Skipped
| Pushed (e : Entry.t)
| Thrown (e : exn).

Definition collect_one (members : list (string * json)) (key : string) : visit :=
  if String.eqb key "keys" then Skipped
  else
    match lookup key members with
    | None => Skipped
    | Some obj =>
        if negb (isObject obj) || negb (has_member "base" obj)
           || negb (has_member "value" obj)
        then Skipped
        else
          match BigInt_ofString key with
          | Err e => Thrown e
          | OK x =>
              match decodeValueToBigInt (String_ofOpt (member "value" obj))
                      (String_ofOpt (member "base" obj)) with
              | Err e => Thrown e
              | OK y => Pushed (Entry.mk x y key)
              end
          end
    end.

(** The [for (const key of Object.keys(data))] loop; [entries] is kept in
    push order. *)
Fixpoint collect (members : list (string * json)) (keys : list string)
    (entries : list Entry.t) : result (list Entry.t) :=
  match keys with
  | [] => OK entries
  | key :: keys' =>
      match collect_one members key with
      | Skipped => collect members keys' entries
      | Pushed e => collect members keys' (entries ++ [e])
      | Thrown e => Err e
      end
  end.

Definition compareEntries (a b : Entry.t) : Z :=
  if Entry.x a <? Entry.x b then -1
  else if Entry.x a >? Entry.x b then 1 else 0.

(** [entries.sort(...)] then [slice(0, k).map(...)]. *)
Definition choose (entries : list Entry.t) (k : Z) : list Point.t :=
  let sorted := Array_sort compareEntries entries in
  map (fun e => Point.mk (Entry.x e) (Entry.y e)) (firstn (Z.to_nat k) sorted).

(** The [try] block. *)
Definition compute_secret (chosen : list Point.t) : outcome :=
  match (f0 <- lagrangeAtZero chosen ;; Fraction_toIntegerStringIfExact f0) with
  | OK secret => Logged secret
  | Err e => Exited ("Error computing secret: " ++ message_of e)%string
  end.

(** [main], from the parsed [data] on. *)
Definition main (data : json) : outcome :=
  match data with
  | JNull =>
      Uncaught (TypeError "Cannot read properties of null (reading 'keys')")
  | JObj members =>
      match lookup "keys" members with
      | Some keys =>
          if negb (isObject keys) then Exited "Invalid JSON: missing keys object"
          else
            match Number_of (member "n" keys), Number_of (member "k" keys) with
            | Some n, Some k =>
                if k <=? 0 then Exited "Invalid keys.n or keys.k"
                else
                  match collect members (Object_keys members) [] with
                  | Err e => Uncaught e
                  | OK entries =>
                      if Z.of_nat (List.length entries) <? k then
                        Exited ("Not enough points provided: have "
                                  ++ Number_toString (Z.of_nat (List.length entries))
                                  ++ ", need " ++ Number_toString k)%string
                      else compute_secret (choose entries k)
                  end
            | _, _ => Exited "Invalid keys.n or keys.k"
            end
      | None => Exited "Invalid JSON: missing keys object"
      end
  | _ => Exited "Invalid JSON: missing keys object"
  end.

(** The input of the second test case of the README (scenario B). *)
Definition scenarioB_members : list (string * json) :=
  [ ("keys", JObj [("n", JNum 4); ("k", JNum 3)]);
    ("1", JObj [("base", JStr "10"); ("value", JStr "4")]);
    ("2", JObj [("base", JStr "2"); ("value", JStr "111")]);
    ("3", JObj [("base", JStr "10"); ("value", JStr "12")]);
    ("6", JObj [("base", JStr "4"); ("value", JStr "213")]) ].

Definition scenarioB : json := JObj scenarioB_members.

(* ================================================================= *)
(** ** Reference notions used by the statements *)

(** Reference rendering of a non-negative integer in base [b], as the
    specification's round trip asks for: digits 0-9 then letters, most
    significant first; [upper i] tells whether the digit of weight [b^i]
    is written with a capital letter. *)
Definition digitChar (upper : bool) (d : Z) : ascii :=
  if d <? 10 then fromCharCode (48 + d)
  else fromCharCode ((if upper then 55 else 87) + d).

Fixpoint render_loop (fuel : nat) (upper : nat -> bool) (b n : Z) (i : nat)
    (acc : string) : string :=
  match fuel with
  | O => acc
  | S fuel' =>
      let acc' := String (digitChar (upper i) (n mod b)) acc in
      if n <? b then acc' else render_loop fuel' upper b (n / b) (S i) acc'
  end.

Definition render (upper : nat -> bool) (b n : Z) : string :=
  render_loop (S (Z.to_nat (Z.log2 n))) upper b n 0 "".

(** An integer polynomial by its coefficients, constant term first. *)
Fixpoint polyEval (coeffs : list Z) (t : Z) : Z :=
  match coeffs with
  | [] => 0
  | c :: cs => c + t * polyEval cs t
  end.

Definition constantTerm (coeffs : list Z) : Z := nth 0 coeffs 0.

(** The points lie on the polynomial. *)
Definition sampled (coeffs : list Z) (points : list Point.t) : Prop :=
  forall p, In p points -> Point.y p = polyEval coeffs (Point.x p).

(** Two positions of the sequence hold the same x. *)
Definition duplicateX (points : list Point.t) : Prop :=
  exists i j, (i < List.length points)%nat /\ (j < List.length points)%nat /\
    i <> j /\ Point.x (at_index points i) = Point.x (at_index points j).

(** What it means for a call to produce a fraction in canonical form. *)
Definition produces_reduced (r : result Fraction) : Prop :=
  exists f, r = OK f /\ reduced f /\ (num f = 0 -> den f = 1).

(** Every character of [s] satisfies [P]. *)
Fixpoint allChars (P : ascii -> bool) (s : string) : bool :=
  match s with
  | EmptyString => true
  | String c s' => P c && allChars P s'
  end.

(** The digit that a character of the trimmed, lower-cased value stands
    for in the decoder's loop, if any. *)
Definition lowerDigit (ch : ascii) : option Z :=
  let c := charCode ch in
  if (48 <=? c) && (c <=? 57) then Some (c - 48)
  else if (97 <=? c) && (c <=? 122) then Some (c - 87)
  else None.

(** The entries that visiting one key adds to the collection. *)
Definition pushed (members : list (string * json)) (key : string) : list Entry.t :=
  match collect_one members key with
  | Pushed e => [e]
  | _ => []
  end.

(** The rational number a fraction stands for. *)
Definition Fval (f : Fraction) : Qc := Q2Qc (num f # Z.to_pos (den f)).

Definition ofZ (z : Z) : Qc := Q2Qc (inject_Z z).

(** Polynomials over the rationals, by coefficient lists. *)
Fixpoint peval (c : list Qc) (t : Qc) : Qc :=
  match c with
  | [] => 0%Qc
  | a :: c' => (a + t * peval c' t)%Qc
  end.

(** Quotient of [c] by [t - r]. *)
Fixpoint pquot (c : list Qc) (r : Qc) : list Qc :=
  match c with
  | [] => []
  | _ :: c' =>
      match c' with
      | [] => []
      | _ :: _ => peval c' r :: pquot c' r
      end
  end.

Fixpoint padd (p q : list Qc) : list Qc :=
  match p, q with
  | [], _ => q
  | _, [] => p
  | a :: p', b :: q' => (a + b)%Qc :: padd p' q'
  end.

Definition pscale (k : Qc) (p : list Qc) : list Qc :=
  map (fun a => (k * a)%Qc) p.

(** [(t - r) * p]. *)
Definition pmul_lin (r : Qc) (p : list Qc) : list Qc :=
  padd (pscale (- r)%Qc p) (0%Qc :: p).

(** [f] is a polynomial function with at most [n] coefficients. *)
Definition is_poly (n : nat) (f : Qc -> Qc) : Prop :=
  exists c, (List.length c <= n)%nat /\ forall t, peval c t = f t.

(** The Lagrange basis factor of index [j] for node [i], and the sums and
    products of the interpolation formula over index lists. *)
Definition lfactor (xs : nat -> Qc) (i j : nat) (t : Qc) : Qc :=
  if Nat.eqb j i then 1%Qc else ((t - xs j) / (xs i - xs j))%Qc.

Fixpoint lprod (xs : nat -> Qc) (i : nat) (js : list nat) (t : Qc) : Qc :=
  match js with
  | [] => 1%Qc
  | j :: js' => (lfactor xs i j t * lprod xs i js' t)%Qc
  end.

Fixpoint lsum (xs ys : nat -> Qc) (js : list nat) (idxs : list nat) (t : Qc) : Qc :=
  match idxs with
  | [] => 0%Qc
  | i :: idxs' => (ys i * lprod xs i js t + lsum xs ys js idxs' t)%Qc
  end.

(* ================================================================= *)
(** ** bigGcd computes the greatest common divisor *)

Lemma rem_halves a b :
  0 <= a -> 0 < b -> b <= a -> 2 * Z.rem a b < a.
Proof.
  intros Ha Hb Hab. rewrite Z.rem_mod_nonneg by lia.
  pose proof (Z.mod_pos_bound a b Hb) as Hm.
  pose proof (Z.div_mod a b ltac:(lia)) as Hd.
  assert (1 <= a / b) by (apply Z.div_le_lower_bound; lia).
  nia.
Qed.

Lemma bigGcd_loop_enough n : forall fuel a b,
  (2 * n + 1 <= fuel)%nat -> 0 <= a -> 0 <= b < 2 ^ Z.of_nat n ->
  bigGcd_loop fuel a b = Z.gcd a b.
Proof.
  induction n as [|n IH]; intros fuel a b Hfuel Ha Hb.
  - destruct fuel as [|fuel]; [lia|]. simpl in *.
    assert (b = 0) by lia. subst b. simpl.
    rewrite Z.gcd_0_r. lia.
  - destruct fuel as [|fuel]; [lia|]. simpl.
    destruct (Z.eqb_spec b 0) as [->|Hb0].
    { rewrite Z.gcd_0_r. lia. }
    rewrite (Z.gcd_comm a b), <- (Z.gcd_rem a b Hb0), (Z.gcd_comm _ b).
    assert (Hr : 0 <= Z.rem a b < b).
    { rewrite Z.rem_mod_nonneg by lia. apply Z.mod_pos_bound. lia. }
    destruct fuel as [|fuel]; [lia|]. simpl.
    destruct (Z.eqb_spec (Z.rem a b) 0) as [->|Hr0].
    { rewrite Z.gcd_0_r. lia. }
    rewrite (Z.gcd_comm b), <- (Z.gcd_rem b (Z.rem a b) Hr0), (Z.gcd_comm _ (Z.rem a b)).
    apply IH; [lia|lia|].
    assert (0 <= Z.rem b (Z.rem a b)).
    { rewrite Z.rem_mod_nonneg by lia. apply Z.mod_pos_bound. lia. }
    pose proof (rem_halves b (Z.rem a b) ltac:(lia) ltac:(lia) ltac:(lia)).
    rewrite Nat2Z.inj_succ, Z.pow_succ_r in Hb by lia. lia.
Qed.

Lemma bigGcd_fuel_enough b :
  0 <= b -> b < 2 ^ Z.of_nat (S (Z.to_nat (Z.log2 b))).
Proof.
  intros Hb. rewrite Nat2Z.inj_succ, Z2Nat.id by apply Z.log2_nonneg.
  destruct (Z.eq_dec b 0) as [->|Hb0]; [reflexivity|].
  apply Z.log2_spec. lia.
Qed.

Lemma bigGcd_spec a b : bigGcd a b = Z.gcd a b.
Proof.
  unfold bigGcd.
  set (a' := if a <? 0 then - a else a).
  set (b' := if b <? 0 then - b else b).
  assert (Ha : a' = Z.abs a) by (unfold a'; destruct (Z.ltb_spec a 0); lia).
  assert (Hb : b' = Z.abs b) by (unfold b'; destruct (Z.ltb_spec b 0); lia).
  rewrite bigGcd_loop_enough with (n := S (Z.to_nat (Z.log2 b'))).
  - rewrite Ha, Hb, Z.gcd_abs_l, Z.gcd_abs_r. reflexivity.
  - unfold bigGcd_fuel. lia.
  - lia.
  - split; [lia|]. apply bigGcd_fuel_enough. lia.
Qed.

(* ================================================================= *)
(** ** Integers inside the rationals *)

Section OfZ.
Local Open Scope Qc_scope.

(** From an equation of canonical rationals to one of plain ones. *)
Ltac to_Q :=
  unfold ofZ, Qcplus, Qcmult, Qcopp, Qcminus, Qcdiv, Qcinv;
  apply Q2Qc_eq_iff; cbn [this Q2Qc]; rewrite ?Qred_correct.

Lemma ofZ_add a b : ofZ (a + b) = ofZ a + ofZ b.
Proof. to_Q. rewrite inject_Z_plus. reflexivity. Qed.

Lemma ofZ_mul a b : ofZ (a * b) = ofZ a * ofZ b.
Proof. to_Q. rewrite inject_Z_mult. reflexivity. Qed.

Lemma ofZ_opp a : ofZ (- a) = - ofZ a.
Proof. to_Q. rewrite inject_Z_opp. reflexivity. Qed.

Lemma ofZ_sub a b : ofZ (a - b) = ofZ a - ofZ b.
Proof.
  unfold Z.sub, Qcminus. rewrite ofZ_add, ofZ_opp. reflexivity.
Qed.

Lemma ofZ_inj a b : ofZ a = ofZ b -> a = b.
Proof.
  intros H. apply Q2Qc_eq_iff in H. unfold Qeq in H. simpl in H. lia.
Qed.

Lemma ofZ_0 : ofZ 0 = 0.
Proof. reflexivity. Qed.

Lemma ofZ_1 : ofZ 1 = 1.
Proof. reflexivity. Qed.

Lemma ofZ_nonzero a : a <> 0%Z -> ofZ a <> 0.
Proof. intros Ha H. apply Ha, ofZ_inj. rewrite H. reflexivity. Qed.

Lemma ofZ_div_eq a b c d :
  b <> 0%Z -> d <> 0%Z -> (a * d = c * b)%Z -> ofZ a / ofZ b = ofZ c / ofZ d.
Proof.
  intros Hb Hd H.
  pose proof (ofZ_nonzero b Hb). pose proof (ofZ_nonzero d Hd).
  assert (E : ofZ a * ofZ d = ofZ c * ofZ b)
    by (rewrite <- !ofZ_mul; congruence).
  transitivity (ofZ a * ofZ d / (ofZ b * ofZ d)); [field; auto|].
  rewrite E. field; auto.
Qed.

Lemma Q2Qc_frac n d :
  (0 < d)%Z -> Q2Qc (n # Z.to_pos d) = ofZ n / ofZ d.
Proof.
  intros Hd. to_Q.
  destruct d as [|p|p]; try lia. simpl.
  unfold Qeq, Qinv, Qmult, inject_Z. simpl. lia.
Qed.

Lemma Fval_div f : (0 < den f)%Z -> Fval f = ofZ (num f) / ofZ (den f).
Proof. apply Q2Qc_frac. Qed.
End OfZ.

(* ================================================================= *)
(** ** The constructor and the four operations *)

Lemma Fraction_new_spec n d :
  d <> 0 ->
  exists f, Fraction_new n d = OK f /\ reduced f /\
            Fval f = (ofZ n / ofZ d)%Qc.
Proof.
  intros Hd. unfold Fraction_new.
  destruct (Z.eqb_spec d 0) as [|_]; [contradiction|].
  set (n1 := if d <? 0 then - n else n).
  set (d1 := if d <? 0 then - d else d).
  replace (if d <? 0 then (- n, - d) else (n, d)) with (n1, d1)
    by (unfold n1, d1; destruct (d <? 0); reflexivity).
  cbv iota beta. rewrite bigGcd_spec.
  assert (Hd1 : 0 < d1) by (unfold d1; destruct (Z.ltb_spec d 0); lia).
  assert (Hnd : n1 * d = n * d1)
    by (unfold n1, d1; destruct (Z.ltb_spec d 0); lia).
  set (g := Z.gcd n1 d1).
  assert (Hg : 0 < g).
  { pose proof (Z.gcd_nonneg n1 d1).
    assert (g <> 0) by (unfold g; intros E; apply Z.gcd_eq_0_r in E; lia).
    unfold g in *. lia. }
  destruct (Z.gcd_divide_l n1 d1) as [qn Hqn].
  destruct (Z.gcd_divide_r n1 d1) as [qd Hqd].
  fold g in Hqn, Hqd.
  unfold BigInt_div. destruct (Z.eqb_spec g 0) as [|_]; [lia|]. simpl.
  eexists. split; [reflexivity|].
  assert (En : n1 ÷ g = qn) by (rewrite Hqn; apply Z.quot_mul; lia).
  assert (Ed : d1 ÷ g = qd) by (rewrite Hqd; apply Z.quot_mul; lia).
  assert (Hqd0 : 0 < qd) by nia.
  split.
  - unfold reduced. simpl. split; [lia|].
    rewrite Z.gcd_abs_l. apply Z.gcd_quot_gcd; [lia|reflexivity].
  - rewrite Fval_div by (simpl; lia). simpl.
    apply ofZ_div_eq; [lia|lia|].
    rewrite En, Ed.
    apply Z.mul_reg_r with (p := g); [lia|]. nia.
Qed.

Lemma reduced_den_nonzero f : reduced f -> den f <> 0.
Proof. intros [H _]. lia. Qed.

Lemma reduced_zero f : reduced f -> num f = 0 -> den f = 1.
Proof.
  intros [Hd Hg] Hn. rewrite Hn in Hg. simpl in Hg. lia.
Qed.

Section Operations.
Local Open Scope Qc_scope.
Variables a b : Fraction.
Hypothesis Ha : reduced a.
Hypothesis Hb : reduced b.

Lemma den_a_nonzero : ofZ (den a) <> 0.
Proof. apply ofZ_nonzero, reduced_den_nonzero, Ha. Qed.

Lemma den_b_nonzero : ofZ (den b) <> 0.
Proof. apply ofZ_nonzero, reduced_den_nonzero, Hb. Qed.

Lemma den_product_nonzero : (den a * den b)%Z <> 0%Z.
Proof.
  pose proof (reduced_den_nonzero _ Ha). pose proof (reduced_den_nonzero _ Hb).
  lia.
Qed.

Lemma Fraction_add_spec :
  exists f, Fraction_add a b = OK f /\ reduced f /\ Fval f = Fval a + Fval b.
Proof.
  unfold Fraction_add. cbv zeta.
  destruct (Fraction_new_spec (num a * den b + num b * den a) _ den_product_nonzero)
    as (f & E & R & V).
  exists f. repeat split; try assumption; try apply R.
  rewrite V, (Fval_div a), (Fval_div b) by (apply Ha || apply Hb).
  rewrite ofZ_add, !ofZ_mul. field. auto using den_a_nonzero, den_b_nonzero.
Qed.

Lemma Fraction_sub_spec :
  exists f, Fraction_sub a b = OK f /\ reduced f /\ Fval f = Fval a - Fval b.
Proof.
  unfold Fraction_sub. cbv zeta.
  destruct (Fraction_new_spec (num a * den b - num b * den a) _ den_product_nonzero)
    as (f & E & R & V).
  exists f. repeat split; try assumption; try apply R.
  rewrite V, (Fval_div a), (Fval_div b) by (apply Ha || apply Hb).
  rewrite ofZ_sub, !ofZ_mul. field. auto using den_a_nonzero, den_b_nonzero.
Qed.

Lemma Fraction_mul_spec :
  exists f, Fraction_mul a b = OK f /\ reduced f /\ Fval f = Fval a * Fval b.
Proof.
  unfold Fraction_mul. cbv zeta.
  destruct (Fraction_new_spec (num a * num b) _ den_product_nonzero) as (f & E & R & V).
  exists f. repeat split; try assumption; try apply R.
  rewrite V, (Fval_div a), (Fval_div b) by (apply Ha || apply Hb).
  rewrite !ofZ_mul. field. auto using den_a_nonzero, den_b_nonzero.
Qed.

Lemma Fraction_div_spec :
  num b <> 0%Z ->
  exists f, Fraction_div a b = OK f /\ reduced f /\ Fval f = Fval a / Fval b.
Proof.
  intros Hn. unfold Fraction_div.
  destruct (Z.eqb_spec (num b) 0) as [|_]; [contradiction|]. cbv zeta.
  assert (Hd : (den a * num b)%Z <> 0%Z).
  { pose proof (reduced_den_nonzero _ Ha). lia. }
  destruct (Fraction_new_spec (num a * den b) _ Hd) as (f & E & R & V).
  exists f. repeat split; try assumption; try apply R.
  rewrite V, (Fval_div a), (Fval_div b) by (apply Ha || apply Hb).
  rewrite !ofZ_mul. pose proof (ofZ_nonzero _ Hn). field. auto using den_a_nonzero, den_b_nonzero.
Qed.

Lemma Fraction_div_zero :
  num b = 0%Z -> Fraction_div a b = Err (Error "Division by zero fraction").
Proof. intros Hn. unfold Fraction_div. rewrite Hn. reflexivity. Qed.
End Operations.

Lemma Fraction_new_zero_den n :
  Fraction_new n 0 = Err (Error "Denominator zero").
Proof. reflexivity. Qed.

Lemma produces_reduced_intro r f :
  r = OK f -> reduced f -> produces_reduced r.
Proof.
  intros E R. exists f. repeat split; try assumption; try apply R.
  apply reduced_zero, R.
Qed.

(** C2.  The constructor called with a non-zero denominator, and [add],
    [sub], [mul] and [div] (by a non-zero fraction) called on fractions in
    canonical form, return a fraction with a strictly positive denominator
    that is coprime with the numerator; a zero numerator then comes with
    denominator 1.  The remaining calls, a zero denominator and a division
    by the zero fraction, throw and produce no fraction. *)
Theorem fraction_invariant (a b : Fraction) :
  reduced a -> reduced b ->
  (forall n d, d <> 0 -> produces_reduced (Fraction_new n d)) /\
  (forall n, Fraction_new n 0 = Err (Error "Denominator zero")) /\
  produces_reduced (Fraction_add a b) /\
  produces_reduced (Fraction_sub a b) /\
  produces_reduced (Fraction_mul a b) /\
  (num b <> 0 -> produces_reduced (Fraction_div a b)) /\
  (num b = 0 -> Fraction_div a b = Err (Error "Division by zero fraction")).
Proof.
  intros Ha Hb. repeat split.
  - intros n d Hd. destruct (Fraction_new_spec n d Hd) as (f & E & R & _).
    eapply produces_reduced_intro; eassumption.
  - destruct (Fraction_add_spec a b Ha Hb) as (f & E & R & _).
    eapply produces_reduced_intro; eassumption.
  - destruct (Fraction_sub_spec a b Ha Hb) as (f & E & R & _).
    eapply produces_reduced_intro; eassumption.
  - destruct (Fraction_mul_spec a b Ha Hb) as (f & E & R & _).
    eapply produces_reduced_intro; eassumption.
  - intros Hn. destruct (Fraction_div_spec a b Ha Hb Hn) as (f & E & R & _).
    eapply produces_reduced_intro; eassumption.
  - apply Fraction_div_zero.
Qed.

Lemma fraction_invariant_witness :
  produces_reduced (Fraction_add (mkFraction 1 2) (mkFraction (-3) 4)) /\
  produces_reduced (Fraction_div (mkFraction 1 2) (mkFraction (-3) 4)).
Proof.
  assert (Ha : reduced (mkFraction 1 2)) by (split; [simpl; lia | reflexivity]).
  assert (Hb : reduced (mkFraction (-3) 4)) by (split; [simpl; lia | reflexivity]).
  pose proof (fraction_invariant _ _ Ha Hb) as (_ & _ & Hadd & _ & _ & Hdiv & _).
  split; [exact Hadd | apply Hdiv; simpl; lia].
Defined.

(* ================================================================= *)
(** ** Polynomials over the rationals *)

Section Polynomials.
Local Open Scope Qc_scope.

Lemma peval_padd p : forall q t, peval (padd p q) t = peval p t + peval q t.
Proof.
  induction p as [|a p IH]; intros [|b q] t; simpl; try ring.
  rewrite IH. ring.
Qed.

Lemma length_padd p : forall q,
  List.length (padd p q) = Nat.max (List.length p) (List.length q).
Proof.
  induction p as [|a p IH]; intros [|b q]; simpl; try reflexivity.
  rewrite IH. reflexivity.
Qed.

Lemma peval_pscale k p t : peval (pscale k p) t = k * peval p t.
Proof.
  induction p as [|a p IH]; simpl; [ring|].
  fold (pscale k p). rewrite IH. ring.
Qed.

Lemma length_pscale k p : List.length (pscale k p) = List.length p.
Proof. apply length_map. Qed.

Lemma peval_pmul_lin r p t : peval (pmul_lin r p) t = (t - r) * peval p t.
Proof.
  unfold pmul_lin. rewrite peval_padd, peval_pscale. simpl. ring.
Qed.

Lemma length_pmul_lin r p : List.length (pmul_lin r p) = S (List.length p).
Proof.
  unfold pmul_lin. rewrite length_padd, length_pscale. simpl. lia.
Qed.

Lemma pquot_spec r c : forall t,
  peval c t - peval c r = (t - r) * peval (pquot c r) t.
Proof.
  induction c as [|a c IH]; intros t; [simpl; ring|].
  destruct c as [|b c]; [simpl; ring|].
  change (pquot (a :: b :: c) r)
    with (peval (b :: c) r :: pquot (b :: c) r).
  change (peval (a :: b :: c) t) with (a + t * peval (b :: c) t).
  change (peval (a :: b :: c) r) with (a + r * peval (b :: c) r).
  change (peval (peval (b :: c) r :: pquot (b :: c) r) t)
    with (peval (b :: c) r + t * peval (pquot (b :: c) r) t).
  specialize (IH t).
  transitivity ((t - r) * peval (b :: c) r
                + t * (peval (b :: c) t - peval (b :: c) r)); [ring|].
  rewrite IH. ring.
Qed.

Lemma length_pquot r c : List.length (pquot c r) = Nat.pred (List.length c).
Proof.
  induction c as [|a c IH]; [reflexivity|].
  destruct c as [|b c]; [reflexivity|].
  change (pquot (a :: b :: c) r)
    with (peval (b :: c) r :: pquot (b :: c) r).
  simpl List.length in *. rewrite IH. reflexivity.
Qed.

(** A polynomial with at most [n] coefficients and [n] distinct roots
    vanishes everywhere. *)
Lemma roots_vanish : forall rs c,
  NoDup rs -> (List.length c <= List.length rs)%nat ->
  (forall r, In r rs -> peval c r = 0) ->
  forall t, peval c t = 0.
Proof.
  induction rs as [|r rs IH]; intros c Hnd Hlen Hroots t.
  - destruct c; [reflexivity | simpl in Hlen; lia].
  - inversion Hnd as [|? ? Hnotin Hnd']; subst.
    assert (Hq : forall t', peval (pquot c r) t' = 0).
    { apply IH; [assumption| |].
      - rewrite length_pquot. simpl in Hlen. lia.
      - intros r' Hr'.
        pose proof (pquot_spec r c r') as E.
        rewrite (Hroots r (or_introl eq_refl)),
                (Hroots r' (or_intror Hr')) in E.
        assert (Hne : r' - r <> 0).
        { intros Z0. apply Hnotin.
          replace r with r' by (transitivity (r' - (r' - r)); [rewrite Z0|]; ring).
          exact Hr'. }
        destruct (Qcmult_integral _ _ (eq_sym E)) as [H0|H0];
          [contradiction | exact H0]. }
    pose proof (pquot_spec r c t) as E.
    rewrite (Hroots r (or_introl eq_refl)), Hq in E.
    transitivity (peval c t - 0); [ring|]. rewrite E. ring.
Qed.

Lemma is_poly_ext n f g : (forall t, f t = g t) -> is_poly n f -> is_poly n g.
Proof.
  intros E (c & L & H). exists c. split; [exact L|].
  intros t. rewrite H. apply E.
Qed.

Lemma is_poly_mono n m f : (n <= m)%nat -> is_poly n f -> is_poly m f.
Proof. intros Hnm (c & L & H). exists c. split; [lia | exact H]. Qed.

Lemma is_poly_zero : is_poly 0 (fun _ => 0).
Proof. exists []. split; [simpl; lia | reflexivity]. Qed.

Lemma is_poly_const a : is_poly 1 (fun _ => a).
Proof. exists [a]. split; [simpl; lia | intros t; simpl; ring]. Qed.

Lemma is_poly_add n f g :
  is_poly n f -> is_poly n g -> is_poly n (fun t => f t + g t).
Proof.
  intros (c & Lc & Hc) (d & Ld & Hd). exists (padd c d). split.
  - rewrite length_padd. lia.
  - intros t. rewrite peval_padd, Hc, Hd. reflexivity.
Qed.

Lemma is_poly_scale n k f : is_poly n f -> is_poly n (fun t => k * f t).
Proof.
  intros (c & Lc & Hc). exists (pscale k c). split.
  - rewrite length_pscale. exact Lc.
  - intros t. rewrite peval_pscale, Hc. reflexivity.
Qed.

Lemma is_poly_mul_lin n r d f :
  is_poly n f -> is_poly (S n) (fun t => (t - r) / d * f t).
Proof.
  intros (c & Lc & Hc). exists (pscale (/ d) (pmul_lin r c)). split.
  - rewrite length_pscale, length_pmul_lin. lia.
  - intros t. rewrite peval_pscale, peval_pmul_lin, Hc.
    unfold Qcdiv. ring.
Qed.
End Polynomials.

(* ================================================================= *)
(** ** The interpolation formula *)

Section Interpolation.
Local Open Scope Qc_scope.
Variables xs ys : nat -> Qc.
Variable k : nat.
Hypothesis distinct :
  forall i j, (i < k)%nat -> (j < k)%nat -> i <> j -> xs i <> xs j.

Lemma sub_nonzero (u v : Qc) : u <> v -> u - v <> 0.
Proof.
  intros Huv H. apply Huv.
  transitivity (v + (u - v)); [ring | rewrite H; ring].
Qed.

(** At its own node a basis product is 1. *)
Lemma lprod_self i js :
  (i < k)%nat -> (forall j, In j js -> (j < k)%nat) ->
  lprod xs i js (xs i) = 1.
Proof.
  intros Hi. induction js as [|j js IH]; intros Hjs; [reflexivity|].
  simpl. rewrite IH by (intros; apply Hjs; right; assumption).
  unfold lfactor. destruct (Nat.eqb_spec j i) as [|Hji]; [ring|].
  assert (xs i - xs j <> 0).
  { apply sub_nonzero, distinct; auto. apply Hjs. left. reflexivity. }
  field. assumption.
Qed.

(** At another node that the product ranges over, it is 0. *)
Lemma lprod_other i m js :
  m <> i -> In m js -> lprod xs i js (xs m) = 0.
Proof.
  intros Hmi. induction js as [|j js IH]; intros Hin; [contradiction|].
  simpl. destruct Hin as [->|Hin].
  - unfold lfactor. destruct (Nat.eqb_spec m i) as [|_]; [contradiction|].
    unfold Qcdiv. ring.
  - rewrite IH by assumption. ring.
Qed.

(** So at node [m] the sum keeps the term of index [m] only. *)
Lemma lsum_node m idxs :
  (m < k)%nat -> NoDup idxs -> (forall i, In i idxs -> (i < k)%nat) ->
  lsum xs ys (seq 0 k) idxs (xs m)
  = if in_dec Nat.eq_dec m idxs then ys m else 0.
Proof.
  intros Hm. induction idxs as [|i idxs IH]; intros Hnd Hlt; [reflexivity|].
  inversion Hnd as [|? ? Hnotin Hnd']; subst.
  cbn [lsum]. rewrite IH by (auto; intros; apply Hlt; right; assumption).
  destruct (Nat.eq_dec i m) as [->|Him].
  - rewrite lprod_self; auto.
    + destruct (in_dec Nat.eq_dec m idxs) as [|_]; [contradiction|].
      destruct (in_dec Nat.eq_dec m (m :: idxs)) as [_|H];
        [ring | exfalso; apply H; left; reflexivity].
    + intros j Hj. apply in_seq in Hj. lia.
  - rewrite lprod_other by (auto; apply in_seq; lia).
    destruct (in_dec Nat.eq_dec m idxs) as [Hin|Hnin];
      destruct (in_dec Nat.eq_dec m (i :: idxs)) as [Hin'|Hnin'];
      try ring.
    + exfalso. apply Hnin'. right. assumption.
    + exfalso. destruct Hin' as [E|Hin']; [auto | auto].
Qed.

(** A basis product over [js] is a polynomial with one more coefficient
    than it has factors. *)
Lemma lprod_is_poly i js :
  is_poly (S (List.length (filter (fun j => negb (Nat.eqb j i)) js)))
          (lprod xs i js).
Proof.
  induction js as [|j js IH].
  - apply is_poly_const.
  - cbn [lprod filter]. unfold lfactor.
    destruct (Nat.eqb j i); cbn [negb].
    + eapply is_poly_ext; [|exact IH]. intros t. simpl. ring.
    + cbn [List.length]. apply is_poly_mul_lin. exact IH.
Qed.

Lemma filter_out_one i : forall js,
  NoDup js -> In i js ->
  S (List.length (filter (fun j => negb (Nat.eqb j i)) js)) = List.length js.
Proof.
  induction js as [|j js IH]; intros Hnd Hin; [contradiction|].
  inversion Hnd as [|? ? Hnotin Hnd']; subst. cbn [filter].
  destruct (Nat.eqb_spec j i) as [->|Hji]; cbn [negb List.length].
  - f_equal. clear IH Hin Hnd. induction js as [|j js IH]; [reflexivity|].
    inversion Hnd' as [|? ? Hn Hnd'']; subst. cbn [filter].
    destruct (Nat.eqb_spec j i) as [->|_].
    + exfalso. apply Hnotin. left. reflexivity.
    + cbn [negb List.length]. f_equal. apply IH; [|assumption].
      intros H. apply Hnotin. right. assumption.
  - f_equal. apply IH; [assumption|].
    destruct Hin as [E|Hin]; [contradiction | assumption].
Qed.

Lemma lsum_is_poly idxs :
  (forall i, In i idxs -> (i < k)%nat) ->
  is_poly k (lsum xs ys (seq 0 k) idxs).
Proof.
  induction idxs as [|i idxs IH]; intros Hlt.
  - apply (is_poly_mono 0); [lia | apply is_poly_zero].
  - cbn [lsum]. apply is_poly_add.
    + apply is_poly_scale.
      pose proof (lprod_is_poly i (seq 0 k)) as P.
      rewrite filter_out_one, length_seq in P; [exact P| |].
      * apply seq_NoDup.
      * apply in_seq. specialize (Hlt i (or_introl eq_refl)). lia.
    + apply IH. intros; apply Hlt; right; assumption.
Qed.

Lemma nodes_NoDup : NoDup (map xs (seq 0 k)).
Proof.
  apply NoDup_map_NoDup_ForallPairs; [|apply seq_NoDup].
  intros i j Hi Hj E. apply in_seq in Hi. apply in_seq in Hj.
  destruct (Nat.eq_dec i j) as [|Hij]; [assumption|].
  exfalso. apply (distinct i j); auto; lia.
Qed.

(** The Lagrange sum through the values of a polynomial with at most [k]
    coefficients is that polynomial. *)
Theorem lagrange_interpolation c :
  (List.length c <= k)%nat ->
  (forall i, (i < k)%nat -> ys i = peval c (xs i)) ->
  forall t, lsum xs ys (seq 0 k) (seq 0 k) t = peval c t.
Proof.
  intros Hlen Hys t.
  assert (Hall : forall i, In i (seq 0 k) -> (i < k)%nat)
    by (intros i Hi; apply in_seq in Hi; lia).
  assert (P : is_poly k (fun t => lsum xs ys (seq 0 k) (seq 0 k) t
                                  + (- (1)) * peval c t)).
  { apply is_poly_add; [apply lsum_is_poly; assumption|].
    apply is_poly_scale. exists c. split; [assumption | reflexivity]. }
  destruct P as (d & Ld & Hd).
  assert (Z0 : peval d t = 0).
  { apply (roots_vanish (map xs (seq 0 k))).
    - apply nodes_NoDup.
    - rewrite length_map, length_seq. exact Ld.
    - intros r Hr. apply in_map_iff in Hr. destruct Hr as (m & <- & Hm).
      rewrite Hd, lsum_node; auto using seq_NoDup.
      destruct (in_dec Nat.eq_dec m (seq 0 k)) as [_|H]; [|contradiction].
      rewrite Hys by auto. ring. }
  rewrite Hd in Z0.
  transitivity (lsum xs ys (seq 0 k) (seq 0 k) t + - (1) * peval c t
                + peval c t); [ring|].
  rewrite Z0. ring.
Qed.
End Interpolation.

(* ================================================================= *)
(** ** lagrangeAtZero computes the interpolation formula *)

Section Lagrange.
Local Open Scope Qc_scope.
Variable points : list Point.t.

Local Notation X i := (Point.x (at_index points i)).
Local Notation Y i := (Point.y (at_index points i)).
Local Notation xsQ := (fun i => ofZ (X i)).
Local Notation ysQ := (fun i => ofZ (Y i)).

Lemma lagrange_inner_cases i js : forall numerator,
  reduced numerator ->
  (exists f, lagrange_inner points i js numerator = OK f /\ reduced f /\
             (forall j, In j js -> j <> i -> X i <> X j) /\
             Fval f = Fval numerator * lprod xsQ i js 0)
  \/ (lagrange_inner points i js numerator
        = Err (Error "Duplicate x values encountered") /\
      exists j, In j js /\ j <> i /\ X i = X j).
Proof.
  induction js as [|j js IH]; intros numerator Hred.
  - left. exists numerator. repeat split; try apply Hred.
    + intros j [].
    + simpl. ring.
  - cbn [lagrange_inner lprod]. unfold lfactor.
    destruct (Nat.eqb_spec j i) as [->|Hji].
    + destruct (IH numerator Hred) as [(f & E & R & D & V)|(E & j & Hj & Hne & Hx)].
      * left. exists f. repeat split; try assumption; try apply R.
        -- intros j [<-|Hj] Hne; [contradiction | auto].
        -- rewrite V. ring.
      * right. split; [assumption|]. exists j. auto using in_cons.
    + destruct (Z.eqb_spec (X i - X j) 0) as [Hz|Hnz].
      * right. split; [reflexivity|]. exists j.
        repeat split; [left; reflexivity | assumption | lia].
      * destruct (Fraction_new_spec (- X j) (X i - X j) Hnz)
          as (f0 & E0 & R0 & V0).
        rewrite E0. cbn [bind].
        destruct (Fraction_mul_spec numerator f0 Hred R0)
          as (f1 & E1 & R1 & V1).
        rewrite E1. cbn [bind].
        destruct (IH f1 R1) as [(f & E & R & D & V)|(E & j' & Hj & Hne & Hx)].
        -- left. exists f. repeat split; try assumption; try apply R.
           ++ intros j' [<-|Hj] Hne; [lia | auto].
           ++ rewrite V, V1, V0.
              rewrite ofZ_opp, ofZ_sub. unfold Qcdiv. ring.
        -- right. split; [assumption|]. exists j'. auto using in_cons.
Qed.

Lemma lagrange_outer_cases k idxs : forall res,
  reduced res ->
  (exists f, lagrange_outer points k idxs res = OK f /\ reduced f /\
             (forall i j, In i idxs -> In j (seq 0 k) -> j <> i -> X i <> X j) /\
             Fval f = Fval res + lsum xsQ ysQ (seq 0 k) idxs 0)
  \/ (lagrange_outer points k idxs res
        = Err (Error "Duplicate x values encountered") /\
      exists i j, In i idxs /\ In j (seq 0 k) /\ j <> i /\ X i = X j).
Proof.
  induction idxs as [|i idxs IH]; intros res Hred.
  - left. exists res. repeat split; try apply Hred.
    + intros i j [].
    + simpl. ring.
  - cbn [lagrange_outer lsum].
    destruct (Fraction_new_spec (Y i) 1 ltac:(lia)) as (f0 & E0 & R0 & V0).
    rewrite E0. cbn [bind].
    destruct (lagrange_inner_cases i (seq 0 k) f0 R0)
      as [(f1 & E1 & R1 & D1 & V1)|(E1 & j & Hj & Hne & Hx)].
    + rewrite E1. cbn [bind].
      destruct (Fraction_add_spec res f1 Hred R1) as (f2 & E2 & R2 & V2).
      rewrite E2. cbn [bind].
      destruct (IH f2 R2) as [(f & E & R & D & V)|(E & i' & j & Hi & Hj & Hne & Hx)].
      * left. exists f. repeat split; try assumption; try apply R.
        -- intros i' j [<-|Hi] Hj Hne; [apply D1; assumption | eauto].
        -- rewrite V, V2, V1, V0. rewrite ofZ_1.
           unfold Qcdiv. field. discriminate.
      * right. split; [assumption|]. exists i', j. auto using in_cons.
    + rewrite E1. cbn [bind]. right. split; [reflexivity|].
      exists i, j. repeat split; auto. left. reflexivity.
Qed.

Lemma lagrangeAtZero_cases :
  (exists f, lagrangeAtZero points = OK f /\ reduced f /\ ~ duplicateX points /\
             Fval f = lsum xsQ ysQ (seq 0 (List.length points))
                        (seq 0 (List.length points)) 0)
  \/ (lagrangeAtZero points = Err (Error "Duplicate x values encountered") /\
      duplicateX points).
Proof.
  unfold lagrangeAtZero. cbv zeta.
  destruct (Fraction_new_spec 0 1 ltac:(lia)) as (f0 & E0 & R0 & V0).
  rewrite E0. cbn [bind].
  set (k := List.length points).
  destruct (lagrange_outer_cases k (seq 0 k) f0 R0)
    as [(f & E & R & D & V)|(E & i & j & Hi & Hj & Hne & Hx)].
  - left. exists f. repeat split; try assumption; try apply R.
    + intros (i & j & Hi & Hj & Hne & Hx).
      apply (D i j); auto; apply in_seq; fold k; lia.
    + rewrite V, V0, ofZ_0. unfold Qcdiv. ring.
  - right. split; [assumption|]. exists i, j.
    apply in_seq in Hi. apply in_seq in Hj. fold k.
    repeat split; auto; lia.
Qed.
End Lagrange.

Lemma duplicateX_NoDup points :
  ~ duplicateX points <-> NoDup (map Point.x points).
Proof.
  unfold duplicateX, at_index. split.
  - intros H. apply (NoDup_nth _ 0). rewrite length_map. intros i j Hi Hj E.
    change 0 with (Point.x (Point.mk 0 0)) in E. rewrite !map_nth in E.
    destruct (Nat.eq_dec i j) as [|Hij]; [assumption|].
    exfalso. apply H. exists i, j. auto.
  - intros H (i & j & Hi & Hj & Hij & E). apply Hij.
    apply (proj1 (NoDup_nth _ 0) H); rewrite ?length_map; auto.
    change 0 with (Point.x (Point.mk 0 0)). rewrite !map_nth. exact E.
Qed.

Lemma peval_ofZ coeffs t :
  peval (map ofZ coeffs) (ofZ t) = ofZ (polyEval coeffs t).
Proof.
  induction coeffs as [|c cs IH]; [reflexivity|].
  simpl. rewrite IH, ofZ_add, ofZ_mul. reflexivity.
Qed.

Lemma polyEval_0 coeffs : polyEval coeffs 0 = constantTerm coeffs.
Proof. destruct coeffs; simpl; [reflexivity | unfold constantTerm; simpl; lia]. Qed.

(** A canonical fraction whose value is an integer is that integer over 1. *)
Lemma Fval_integer f z : reduced f -> Fval f = ofZ z -> f = mkFraction z 1.
Proof.
  intros [Hd Hg] V. rewrite Fval_div in V by assumption.
  assert (E : num f = z * den f).
  { apply ofZ_inj. rewrite ofZ_mul, <- V.
    pose proof (ofZ_nonzero (den f) ltac:(lia)). field. assumption. }
  assert (D : den f = 1).
  { rewrite E, Z.gcd_abs_l, Z.gcd_comm, Z.mul_comm in Hg.
    rewrite Z.gcd_mul_diag_l in Hg by lia. exact Hg. }
  destruct f as [n d]. simpl in *. subst d. f_equal. lia.
Qed.

(** C5.  [lagrangeAtZero] throws the duplicate-x error exactly when two
    different positions of its argument hold the same x; when all x are
    pairwise distinct it returns a fraction. *)
Theorem lagrangeAtZero_duplicate points :
  (lagrangeAtZero points = Err (Error "Duplicate x values encountered")
   <-> duplicateX points) /\
  (~ duplicateX points -> exists f, lagrangeAtZero points = OK f).
Proof.
  destruct (lagrangeAtZero_cases points) as [(f & E & R & D & V)|(E & D)].
  - split; [split|].
    + rewrite E. discriminate.
    + intros H. contradiction.
    + intros _. exists f. exact E.
  - split; [split|].
    + intros _. exact D.
    + intros _. exact E.
    + intros H. contradiction.
Qed.

Lemma lagrangeAtZero_duplicate_witness :
  lagrangeAtZero [Point.mk 1 4; Point.mk 2 7; Point.mk 1 12]
  = Err (Error "Duplicate x values encountered").
Proof.
  apply (proj1 (lagrangeAtZero_duplicate _)).
  exists 0%nat, 2%nat. simpl. repeat split; try lia.
Defined.

(** C1.  For points with pairwise distinct x that lie on an integer
    polynomial with at most as many coefficients as there are points (degree
    at most k-1), [lagrangeAtZero] returns the fraction p(0)/1, and
    [toIntegerStringIfExact] extracts from it the decimal string of the
    constant term p(0). *)
Theorem lagrange_recovers_constant (points : list Point.t) (coeffs : list Z) :
  NoDup (map Point.x points) ->
  (List.length coeffs <= List.length points)%nat ->
  sampled coeffs points ->
  exists f,
    lagrangeAtZero points = OK f /\
    f = mkFraction (constantTerm coeffs) 1 /\
    polyEval coeffs 0 = constantTerm coeffs /\
    Fraction_toIntegerStringIfExact f
    = OK (BigInt_toString (constantTerm coeffs)).
Proof.
  intros Hnd Hlen Hs.
  destruct (lagrangeAtZero_cases points) as [(f & E & R & D & V)|(E & D)].
  2:{ apply duplicateX_NoDup in Hnd. contradiction. }
  exists f. split; [exact E|].
  assert (F : f = mkFraction (constantTerm coeffs) 1).
  { apply Fval_integer; [exact R|]. rewrite V.
    rewrite lagrange_interpolation with (c := map ofZ coeffs).
    - change 0%Qc with (ofZ 0). rewrite peval_ofZ, polyEval_0. reflexivity.
    - intros i j Hi Hj Hij Heq. apply ofZ_inj in Heq.
      apply D. exists i, j. auto.
    - rewrite length_map. exact Hlen.
    - intros i Hi. rewrite peval_ofZ. f_equal. apply Hs.
      apply nth_In. exact Hi. }
  split; [exact F|]. split; [apply polyEval_0|].
  rewrite F. reflexivity.
Qed.

Lemma lagrange_recovers_constant_witness :
  exists f,
    lagrangeAtZero [Point.mk 1 4; Point.mk 2 7; Point.mk 3 12] = OK f /\
    f = mkFraction 3 1 /\
    polyEval [3; 0; 1] 0 = 3 /\
    Fraction_toIntegerStringIfExact f = OK "3".
Proof.
  apply (lagrange_recovers_constant
           [Point.mk 1 4; Point.mk 2 7; Point.mk 3 12] [3; 0; 1]).
  - simpl. repeat constructor; simpl; intuition lia.
  - simpl. lia.
  - intros p [<-|[<-|[<-|[]]]]; reflexivity.
Defined.

(* ================================================================= *)
(** ** toIntegerStringIfExact *)

(** C4.  On a fraction with a non-zero denominator, [toIntegerStringIfExact]
    returns the decimal string of the numerator when the denominator is 1,
    returns the decimal string of the exact quotient when the denominator
    divides the numerator, and otherwise throws the not-integer error whose
    message shows numerator/denominator; so no string is returned for a
    value that is not an integer. *)
Theorem toIntegerStringIfExact_spec (f : Fraction) :
  den f <> 0 ->
  (den f = 1 ->
   Fraction_toIntegerStringIfExact f = OK (BigInt_toString (num f))) /\
  ((den f | num f) ->
   exists q, num f = q * den f /\
             Fraction_toIntegerStringIfExact f = OK (BigInt_toString q)) /\
  (~ (den f | num f) ->
   Fraction_toIntegerStringIfExact f
   = Err (Error ("Result is not integer: " ++ BigInt_toString (num f)
                   ++ "/" ++ BigInt_toString (den f))%string)).
Proof.
  intros Hd. unfold Fraction_toIntegerStringIfExact, Fraction_toString.
  destruct (Z.eqb_spec (den f) 1) as [H1|H1].
  - repeat split.
    + intros [q Hq]. exists (num f). split; [lia | reflexivity].
    + intros H. exfalso. apply H. rewrite H1. apply Z.divide_1_l.
  - unfold BigInt_rem, BigInt_div.
    destruct (Z.eqb_spec (den f) 0) as [|_]; [contradiction|]. cbn [bind].
    pose proof (Z.rem_divide (num f) (den f) Hd) as Hrem.
    destruct (Z.eqb_spec (Z.rem (num f) (den f)) 0) as [H0|H0]; cbn [bind].
    + repeat split.
      * intros H. contradiction.
      * intros _. destruct (proj1 Hrem H0) as [q Hq]. exists q.
        split; [exact Hq|]. rewrite Hq, Z.quot_mul by assumption. reflexivity.
      * intros H. exfalso. apply H, Hrem, H0.
    + repeat split.
      * intros H. contradiction.
      * intros H. exfalso. apply H0, Hrem, H.
Qed.

Lemma toIntegerStringIfExact_spec_witness :
  Fraction_toIntegerStringIfExact (mkFraction 7 2)
  = Err (Error "Result is not integer: 7/2").
Proof.
  apply (toIntegerStringIfExact_spec (mkFraction 7 2)).
  - simpl. lia.
  - simpl. intros [q Hq]. lia.
Defined.

(** C10.  On the empty sequence [lagrangeAtZero] returns the fraction 0/1. *)
Theorem lagrangeAtZero_empty : lagrangeAtZero [] = OK (mkFraction 0 1).
Proof. reflexivity. Qed.

(* ================================================================= *)
(** ** The decoder *)

Lemma charCode_fromCharCode z : 0 <= z < 256 -> charCode (fromCharCode z) = z.
Proof.
  intros Hz. unfold charCode, fromCharCode.
  rewrite N_ascii_embedding by lia. lia.
Qed.

Lemma charCode_digitChar u d :
  0 <= d < 36 ->
  charCode (digitChar u d)
  = if d <? 10 then 48 + d else (if u then 55 else 87) + d.
Proof.
  intros Hd. unfold digitChar.
  destruct (Z.ltb_spec d 10); [|destruct u]; apply charCode_fromCharCode; lia.
Qed.

Lemma digitChar_not_space u d :
  0 <= d < 36 -> isWhiteSpace (digitChar u d) = false.
Proof.
  intros Hd. unfold isWhiteSpace. rewrite charCode_digitChar by assumption.
  destruct (Z.ltb_spec d 10); [|destruct u]; lia.
Qed.

Lemma lowerChar_digitChar u d :
  0 <= d < 36 -> lowerChar (digitChar u d) = digitChar false d.
Proof.
  intros Hd. unfold lowerChar. rewrite charCode_digitChar by assumption.
  unfold digitChar.
  destruct (Z.ltb_spec d 10).
  - replace ((65 <=? 48 + d) && (48 + d <=? 90)) with false by lia.
    replace ((192 <=? 48 + d) && (48 + d <=? 222)) with false by lia.
    reflexivity.
  - destruct u.
    + replace ((65 <=? 55 + d) && (55 + d <=? 90)) with true by lia.
      cbn [orb]. f_equal. lia.
    + replace ((65 <=? 87 + d) && (87 + d <=? 90)) with false by lia.
      replace ((192 <=? 87 + d) && (87 + d <=? 222)) with false by lia.
      reflexivity.
Qed.

Lemma decode_loop_digit b d s acc :
  0 <= d < b -> b <= 36 ->
  decode_loop b (String (digitChar false d) s) acc
  = decode_loop b s (acc * b + d).
Proof.
  intros Hd Hb. cbn [decode_loop]. cbv zeta.
  rewrite charCode_digitChar by lia.
  destruct (Z.ltb_spec d 10).
  - replace ((48 <=? 48 + d) && (48 + d <=? 57)) with true by lia.
    cbn [bind]. replace (48 + d - 48 >=? b) with false by lia.
    f_equal. lia.
  - replace ((48 <=? 87 + d) && (87 + d <=? 57)) with false by lia.
    replace ((97 <=? 87 + d) && (87 + d <=? 122)) with true by lia.
    cbn [bind]. replace (87 + d - 87 >=? b) with false by lia.
    f_equal. lia.
Qed.

Lemma trim_id s :
  allChars (fun c => negb (isWhiteSpace c)) s = true -> trim s = s.
Proof.
  intros H. unfold trim.
  assert (E : trimStart s = s).
  { destruct s as [|c s]; [reflexivity|]. simpl in *.
    apply andb_prop in H. destruct H as [Hc _].
    destruct (isWhiteSpace c); [discriminate | reflexivity]. }
  rewrite E. clear E. induction s as [|c s IH]; [reflexivity|].
  simpl in *. apply andb_prop in H. destruct H as [Hc Hs].
  rewrite (IH Hs). destruct s; [|reflexivity].
  destruct (isWhiteSpace c); [discriminate | reflexivity].
Qed.

Section Render.
Variable b : Z.
Hypothesis Hb : 2 <= b <= 36.

Lemma digit_bound n : 0 <= n mod b < 36.
Proof. pose proof (Z.mod_pos_bound n b ltac:(lia)). lia. Qed.

Lemma quotient_bound fuel n :
  b <= n < 2 ^ Z.of_nat (S fuel) -> 0 <= n / b < 2 ^ Z.of_nat fuel.
Proof.
  intros Hn. rewrite Nat2Z.inj_succ, Z.pow_succ_r in Hn by lia.
  split; [apply Z.div_pos; lia|].
  apply Z.div_lt_upper_bound; [lia|].
  assert (0 < 2 ^ Z.of_nat fuel) by (apply Z.pow_pos_nonneg; lia). nia.
Qed.

Lemma render_loop_no_space upper : forall fuel n i acc,
  allChars (fun c => negb (isWhiteSpace c)) acc = true ->
  allChars (fun c => negb (isWhiteSpace c)) (render_loop fuel upper b n i acc)
  = true.
Proof.
  induction fuel as [|fuel IH]; intros n i acc Hacc; [exact Hacc|].
  cbn [render_loop]. cbv zeta.
  assert (H : allChars (fun c => negb (isWhiteSpace c))
                (String (digitChar (upper i) (n mod b)) acc) = true).
  { cbn [allChars]. rewrite digitChar_not_space by apply digit_bound.
    exact Hacc. }
  destruct (n <? b); [exact H | apply IH, H].
Qed.

Lemma render_loop_lower upper : forall fuel n i acc,
  toLowerCase (render_loop fuel upper b n i acc)
  = render_loop fuel (fun _ => false) b n i (toLowerCase acc).
Proof.
  induction fuel as [|fuel IH]; intros n i acc; [reflexivity|].
  cbn [render_loop]. cbv zeta.
  destruct (n <? b).
  - cbn [toLowerCase]. rewrite lowerChar_digitChar by apply digit_bound.
    reflexivity.
  - rewrite IH. cbn [toLowerCase].
    rewrite lowerChar_digitChar by apply digit_bound. reflexivity.
Qed.

Lemma decode_render_loop : forall fuel n i acc,
  0 <= n < 2 ^ Z.of_nat fuel ->
  decode_loop b (render_loop fuel (fun _ => false) b n i acc) 0
  = decode_loop b acc n.
Proof.
  induction fuel as [|fuel IH]; intros n i acc Hn.
  - simpl in Hn. assert (n = 0) by lia. subst n. reflexivity.
  - cbn [render_loop]. cbv zeta.
    pose proof (Z.mod_pos_bound n b ltac:(lia)) as Hm.
    destruct (Z.ltb_spec n b) as [Hlt|Hge].
    + rewrite decode_loop_digit by lia.
      rewrite Z.mod_small by lia. reflexivity.
    + rewrite IH by (apply quotient_bound; lia).
      rewrite decode_loop_digit by lia. f_equal.
      pose proof (Z.div_mod n b ltac:(lia)). lia.
Qed.
End Render.

Lemma log2_fuel n : 0 <= n -> n < 2 ^ Z.of_nat (S (Z.to_nat (Z.log2 n))).
Proof. apply bigGcd_fuel_enough. Qed.

(** Printing a base in range and reading it back. *)
Lemma base_string_roundtrip b :
  2 <= b <= 36 -> Number_ofString (Number_toString b) = Some b.
Proof.
  intros Hb.
  assert (H : forallb
                (fun n => match Number_ofString (Number_toString (Z.of_nat n)) with
                          | Some m => m =? Z.of_nat n
                          | None => false
                          end) (seq 2 35) = true) by (vm_compute; reflexivity).
  rewrite forallb_forall in H. specialize (H (Z.to_nat b)).
  rewrite Z2Nat.id in H by lia.
  destruct (Number_ofString (Number_toString b)) as [m|].
  - f_equal. apply Z.eqb_eq, H, in_seq. lia.
  - discriminate H. apply in_seq. lia.
Qed.

(** C3.  For a base [b] from 2 to 36 and a non-negative integer [n],
    decoding the base-[b] rendering of [n], whatever the case of its
    letters, with the base given as the decimal string of [b], returns [n]. *)
Theorem decode_render (upper : nat -> bool) (b n : Z) :
  2 <= b <= 36 -> 0 <= n ->
  decodeValueToBigInt (render upper b n) (Number_toString b) = OK n.
Proof.
  intros Hb Hn. unfold decodeValueToBigInt.
  rewrite base_string_roundtrip by assumption.
  replace ((b >=? 2) && (b <=? 36)) with true by lia. cbv zeta.
  unfold render.
  rewrite trim_id by (apply render_loop_no_space; try assumption; reflexivity).
  rewrite render_loop_lower by assumption. cbn [toLowerCase].
  rewrite decode_render_loop
    by first [assumption | split; [lia | apply log2_fuel; lia]].
  reflexivity.
Qed.

Lemma decode_render_witness :
  decodeValueToBigInt "FF" "16" = OK 255.
Proof.
  apply (decode_render (fun _ => true) 16 255); lia.
Defined.

(** C8 as stated fails: a value that is empty after trimming decodes to
    zero without any error. *)
Lemma decode_empty_counterexample :
  ~ (forall b s, 2 <= b <= 36 -> trim s = "" ->
       exists e, decodeValueToBigInt s (Number_toString b) = Err e).
Proof.
  intros H. destruct (H 10 "  " ltac:(lia) eq_refl) as [e He].
  vm_compute in He. discriminate He.
Qed.

(** C8, amended.  For a base from 2 to 36, a value string that is empty
    after trimming decodes to 0 and raises no error. *)
Theorem decode_empty (b : Z) (s : string) :
  2 <= b <= 36 -> trim s = "" ->
  decodeValueToBigInt s (Number_toString b) = OK 0.
Proof.
  intros Hb Hs. unfold decodeValueToBigInt.
  rewrite base_string_roundtrip by assumption.
  replace ((b >=? 2) && (b <=? 36)) with true by lia.
  cbv zeta. rewrite Hs. reflexivity.
Qed.

Lemma decode_empty_witness : decodeValueToBigInt " " "2" = OK 0.
Proof. apply (decode_empty 2 " "); [lia | reflexivity]. Defined.

(* ================================================================= *)
(** ** main *)

(** Past the metadata checks and a collection loop that ran to its end,
    the outcome of [main] depends on [k] and on the collected entries
    only. *)
Lemma main_after_collect members keys n k entries :
  lookup "keys" members = Some keys ->
  isObject keys = true ->
  Number_of (member "n" keys) = Some n ->
  Number_of (member "k" keys) = Some k ->
  0 < k ->
  collect members (Object_keys members) [] = OK entries ->
  main (JObj members)
  = if Z.of_nat (List.length entries) <? k then
      Exited ("Not enough points provided: have "
                ++ Number_toString (Z.of_nat (List.length entries))
                ++ ", need " ++ Number_toString k)%string
    else compute_secret (choose entries k).
Proof.
  intros Hkeys Hobj Hn Hk Hpos Hcollect. unfold main.
  rewrite Hkeys, Hobj, Hn, Hk, Hcollect. cbn [negb].
  replace (k <=? 0) with false by lia. reflexivity.
Qed.

(** C6.  With well-formed metadata and a collection loop that ran to its
    end, fewer collected entries than [k] make [main] report that there
    are not enough points and exit, whatever the declared [n] and whatever
    the entries are: nothing is interpolated. *)
Theorem insufficient_points members keys n k entries :
  lookup "keys" members = Some keys ->
  isObject keys = true ->
  Number_of (member "n" keys) = Some n ->
  Number_of (member "k" keys) = Some k ->
  0 < k ->
  collect members (Object_keys members) [] = OK entries ->
  Z.of_nat (List.length entries) < k ->
  main (JObj members)
  = Exited ("Not enough points provided: have "
              ++ Number_toString (Z.of_nat (List.length entries))
              ++ ", need " ++ Number_toString k)%string.
Proof.
  intros Hkeys Hobj Hn Hk Hpos Hcollect Hlt.
  rewrite (main_after_collect members keys n k entries) by assumption.
  replace (Z.of_nat (List.length entries) <? k) with true by lia.
  reflexivity.
Qed.

Lemma insufficient_points_witness :
  main (JObj [ ("keys", JObj [("n", JNum 10); ("k", JNum 3)]);
               ("1", JObj [("base", JStr "10"); ("value", JStr "4")]) ])
  = Exited "Not enough points provided: have 1, need 3".
Proof.
  apply (insufficient_points
           [ ("keys", JObj [("n", JNum 10); ("k", JNum 3)]);
             ("1", JObj [("base", JStr "10"); ("value", JStr "4")]) ]
           (JObj [("n", JNum 10); ("k", JNum 3)]) 10 3 [Entry.mk 1 4 "1"]);
    try reflexivity; simpl; lia.
Defined.

(** C7.  On scenario B the collection yields the four decoded points, the
    selection keeps those with x = 1, 2, 3 and y = 4, 7, 12, and [main]
    prints 3. *)
Theorem scenarioB_output :
  collect scenarioB_members (Object_keys scenarioB_members) []
  = OK [Entry.mk 1 4 "1"; Entry.mk 2 7 "2"; Entry.mk 3 12 "3"; Entry.mk 6 39 "6"] /\
  choose [Entry.mk 1 4 "1"; Entry.mk 2 7 "2"; Entry.mk 3 12 "3"; Entry.mk 6 39 "6"] 3
  = [Point.mk 1 4; Point.mk 2 7; Point.mk 3 12] /\
  main scenarioB = Logged "3".
Proof. repeat split; vm_compute; reflexivity. Qed.

(** C9 as stated fails, on both of its parts.  An entry that has a base
    but no value does not lack both fields, and is skipped all the same;
    and an entry that has both fields but a digit outside its base is not
    skipped, yet yields no point: the decoder throws. *)
Lemma skip_counterexample :
  ~ (forall members key obj,
       key <> "keys" -> lookup key members = Some obj ->
       (collect_one members key = Skipped <->
        has_member "base" obj = false /\ has_member "value" obj = false)) /\
  ~ (forall members key obj,
       key <> "keys" -> lookup key members = Some obj ->
       collect_one members key <> Skipped ->
       exists e, collect_one members key = Pushed e).
Proof.
  split; intros H.
  - destruct (H [("1", JObj [("base", JStr "10")])] "1"
                (JObj [("base", JStr "10")]))
      as [Hskip _]; [discriminate | reflexivity |].
    destruct (Hskip eq_refl) as [Hbase _]. discriminate Hbase.
  - destruct (H [("1", JObj [("base", JStr "2"); ("value", JStr "12")])] "1"
                (JObj [("base", JStr "2"); ("value", JStr "12")]))
      as [e He]; [discriminate | reflexivity | discriminate |].
    discriminate He.
Qed.

(** C9, amended.  An entry other than the metadata is skipped, with no
    error, exactly when it is not an object holding both a base and a value
    field.  An entry that is not skipped has both fields; its key is
    converted and its value decoded: when both succeed the entry becomes
    exactly one more collected point, and when one of them throws the
    collection stops with that exception. *)
Theorem collect_one_spec members key obj :
  key <> "keys" -> lookup key members = Some obj ->
  (collect_one members key = Skipped <->
   has_member "base" obj && has_member "value" obj = false) /\
  (collect_one members key <> Skipped ->
   exists base value,
     member "base" obj = Some base /\ member "value" obj = Some value /\
     collect_one members key
     = match BigInt_ofString key with
       | Err e => Thrown e
       | OK x =>
           match decodeValueToBigInt (String_of value) (String_of base) with
           | Err e => Thrown e
           | OK y => Pushed (Entry.mk x y key)
           end
       end) /\
  (forall keys entries,
     collect members (key :: keys) entries
     = match collect_one members key with
       | Skipped => collect members keys entries
       | Pushed e => collect members keys (entries ++ [e])
       | Thrown e => Err e
       end).
Proof.
  intros Hkey Hlookup.
  assert (Hk : String.eqb key "keys" = false) by (apply String.eqb_neq; exact Hkey).
  assert (Hobj : has_member "base" obj = true -> isObject obj = true).
  { unfold has_member, member. destruct obj; simpl; congruence. }
  split; [|split; [|reflexivity]]; unfold collect_one; rewrite Hk, Hlookup.
  - destruct (has_member "base" obj) eqn:Hb.
    2:{ rewrite orb_true_r. cbn [negb orb andb]. tauto. }
    rewrite (Hobj eq_refl). cbn [negb orb andb].
    destruct (has_member "value" obj) eqn:Hv; cbn [negb]; [|tauto].
    split; [|discriminate].
    destruct (BigInt_ofString key); [|discriminate].
    destruct (decodeValueToBigInt _ _); discriminate.
  - unfold has_member.
    destruct (isObject obj); cbn [negb orb]; [|congruence].
    destruct (member "base" obj) as [base|]; cbn [negb orb]; [|congruence].
    destruct (member "value" obj) as [value|]; cbn [negb orb]; [|congruence].
    intros _. exists base, value. repeat split.
Qed.

Lemma collect_one_spec_witness :
  collect_one [("2", JObj [("base", JStr "2"); ("value", JStr "111")])] "2"
  = Pushed (Entry.mk 2 7 "2").
Proof.
  destruct (collect_one_spec
              [("2", JObj [("base", JStr "2"); ("value", JStr "111")])] "2"
              (JObj [("base", JStr "2"); ("value", JStr "111")]))
    as (_ & H & _); [discriminate | reflexivity |].
  destruct H as (base & value & Eb & Ev & H); [discriminate|].
  rewrite H. injection Eb as <-. injection Ev as <-. reflexivity.
Defined.

(* ================================================================= *)
(** ** Checks of the model on the README's inputs *)

Example decode_case_insensitive :
  decodeValueToBigInt "Ff" "16" = decodeValueToBigInt "ff" "16".
Proof. reflexivity. Qed.

Example decode_digit_out_of_range :
  decodeValueToBigInt "129" "8" = Err (Error "Digit 9 not valid for base 8").
Proof. reflexivity. Qed.

Example decode_unsupported_base :
  decodeValueToBigInt "10" "37" = Err (Error "Unsupported base: 37").
Proof. reflexivity. Qed.

Example parse_literals :
  map parseIntegerLiteral [" 12 "; "0x1F"; "-7"; "+7"; ""; "0"; "12px"; "0b2"]
  = [Some 12; Some 31; Some (-7); Some 7; Some 0; Some 0; None; None].
Proof. reflexivity. Qed.

Example keys_order :
  Object_keys [("keys", JNull); ("10", JNull); ("b", JNull); ("2", JNull);
               ("01", JNull); ("1", JNull)]
  = ["1"; "2"; "10"; "keys"; "b"; "01"].
Proof. vm_compute. reflexivity. Qed.

Example scenarioA_output :
  main (JObj
    [ ("keys", JObj [("n", JNum 10); ("k", JNum 7)]);
      ("1", JObj [("base", JStr "6"); ("value", JStr "13444211440455345511")]);
      ("2", JObj [("base", JStr "15"); ("value", JStr "aed7015a346d63")]);
      ("3", JObj [("base", JStr "15"); ("value", JStr "6aeeb69631c227c")]);
      ("4", JObj [("base", JStr "16"); ("value", JStr "e1b5e05623d881f")]);
      ("5", JObj [("base", JStr "8"); ("value", JStr "316034514573652620673")]);
      ("6", JObj [("base", JStr "3");
                  ("value", JStr "2122212201122002221120200210011020220200")]);
      ("7", JObj [("base", JStr "3");
                  ("value", JStr "20120221122211000100210021102001201112121")]);
      ("8", JObj [("base", JStr "6"); ("value", JStr "20220554335330240002224253")]);
      ("9", JObj [("base", JStr "12"); ("value", JStr "45153788322a1255483")]);
      ("10", JObj [("base", JStr "7"); ("value", JStr "1101613130313526312514143")]) ])
  = Logged "79836264049851".
Proof. vm_compute. reflexivity. Qed.

Example non_integer_result :
  compute_secret [Point.mk 1 1; Point.mk 2 2; Point.mk 4 5]
  = Exited "Error computing secret: Result is not integer: 1/3".
Proof. vm_compute. reflexivity. Qed.

(* ================================================================= *)
(** ** Further properties: the BigInt utilities *)

(** X1.  [bigGcd] returns the greatest common divisor of its arguments,
    non-negative whatever their signs; the loop has ended within the
    iterations allotted to it, so that allowing more changes nothing. *)
Theorem bigGcd_is_gcd (a b : Z) :
  bigGcd a b = Z.gcd a b /\
  0 <= bigGcd a b /\
  (bigGcd a b | a) /\ (bigGcd a b | b) /\
  (forall c, (c | a) -> (c | b) -> (c | bigGcd a b)) /\
  (forall fuel, (bigGcd_fuel (Z.abs b) <= fuel)%nat ->
     bigGcd_loop fuel (Z.abs a) (Z.abs b) = bigGcd a b).
Proof.
  rewrite bigGcd_spec. repeat split.
  - apply Z.gcd_nonneg.
  - apply Z.gcd_divide_l.
  - apply Z.gcd_divide_r.
  - intros c Ha Hb. apply Z.gcd_greatest; assumption.
  - intros fuel Hfuel.
    rewrite bigGcd_loop_enough with (n := S (Z.to_nat (Z.log2 (Z.abs b)))).
    + rewrite Z.gcd_abs_l, Z.gcd_abs_r. reflexivity.
    + unfold bigGcd_fuel in Hfuel. lia.
    + lia.
    + split; [lia|]. apply bigGcd_fuel_enough. lia.
Qed.

Lemma bigPow_loop_spec : forall fuel b e res,
  0 <= e < 2 ^ Z.of_nat fuel ->
  bigPow_loop (S fuel) b e res = res * b ^ e.
Proof.
  induction fuel as [|fuel IH]; intros b e res He.
  - simpl in He. assert (e = 0) by lia. subst e. simpl. lia.
  - remember (S fuel) as fuel1. cbn [bigPow_loop]. subst fuel1.
    destruct (Z.gtb_spec e 0) as [Hpos|Hle].
    2:{ assert (e = 0) by lia. subst e. simpl. lia. }
    cbv zeta.
    assert (Hland : Z.land e 1 = e mod 2)
      by (change 1 with (Z.ones 1); rewrite Z.land_ones by lia; reflexivity).
    assert (Hshift : Z.shiftr e 1 = e / 2)
      by (rewrite Z.shiftr_div_pow2 by lia; reflexivity).
    rewrite Hland, Hshift.
    pose proof (Z.div_mod e 2 ltac:(lia)) as Hdm.
    pose proof (Z.mod_pos_bound e 2 ltac:(lia)) as Hm.
    assert (Hq : 0 <= e / 2 < 2 ^ Z.of_nat fuel).
    { rewrite Nat2Z.inj_succ, Z.pow_succ_r in He by lia.
      split; [apply Z.div_pos; lia | apply Z.div_lt_upper_bound; lia]. }
    rewrite IH by exact Hq.
    assert (Hsq : (b * b) ^ (e / 2) = b ^ (2 * (e / 2))).
    { rewrite Z.pow_mul_r by lia. rewrite Z.pow_2_r. reflexivity. }
    rewrite Hsq.
    destruct (Z.eqb_spec (e mod 2) 0) as [H0|H1].
    + replace (2 * (e / 2)) with e by lia. reflexivity.
    + assert (Hp : b ^ e = b ^ (2 * (e / 2)) * b).
      { assert (E : e = 2 * (e / 2) + 1) by lia.
        rewrite E at 1. rewrite Z.pow_add_r by lia.
        rewrite Z.pow_1_r. reflexivity. }
      rewrite Hp. ring.
Qed.

(** X2.  [bigPow] raises its base to a non-negative exponent, and returns
    1 for an exponent that is zero or negative. *)
Theorem bigPow_spec (base exp : Z) :
  (0 <= exp -> bigPow base exp = base ^ exp) /\
  (exp <= 0 -> bigPow base exp = 1).
Proof.
  unfold bigPow, bigPow_fuel. cbv zeta. split; intros He.
  - rewrite bigPow_loop_spec; [lia|].
    split; [assumption | apply bigGcd_fuel_enough; assumption].
  - cbn [bigPow_loop]. replace (exp >? 0) with false by lia. reflexivity.
Qed.

Lemma bigPow_spec_witness : bigPow 3 5 = 243 /\ bigPow 3 (-2) = 1.
Proof.
  split.
  - apply (proj1 (bigPow_spec 3 5)). lia.
  - apply (proj2 (bigPow_spec 3 (-2))). lia.
Defined.

(* ================================================================= *)
(** ** Further properties: fractions *)

Lemma Fval_cross f g :
  0 < den f -> 0 < den g -> Fval f = Fval g ->
  num f * den g = num g * den f.
Proof.
  intros Hf Hg H. rewrite !Fval_div in H by assumption.
  pose proof (ofZ_nonzero (den f) ltac:(lia)) as Nf.
  pose proof (ofZ_nonzero (den g) ltac:(lia)) as Ng.
  apply ofZ_inj. rewrite !ofZ_mul.
  transitivity ((ofZ (num f) / ofZ (den f)) * ofZ (den f) * ofZ (den g))%Qc;
    [field; assumption|].
  rewrite H. field. assumption.
Qed.

(** A rational has one canonical representation only. *)
Lemma reduced_unique f g :
  reduced f -> reduced g -> num f * den g = num g * den f -> f = g.
Proof.
  intros [Hdf Hgf] [Hdg Hgg] Hx.
  rewrite Z.gcd_abs_l in Hgf, Hgg.
  assert (D1 : (den f | den g)).
  { apply Z.gauss with (m := num f); [|rewrite Z.gcd_comm; exact Hgf].
    exists (num g). lia. }
  assert (D2 : (den g | den f)).
  { apply Z.gauss with (m := num g); [|rewrite Z.gcd_comm; exact Hgg].
    exists (num f). lia. }
  assert (E : den f = den g)
    by (apply Z.divide_antisym_nonneg; try assumption; lia).
  destruct f as [nf df], g as [ng dg]. simpl in *. subst dg.
  f_equal. apply Z.mul_reg_r with (p := df); lia.
Qed.

Lemma reduced_Fval_inj f g : reduced f -> reduced g -> Fval f = Fval g -> f = g.
Proof.
  intros Hf Hg H. apply reduced_unique; try assumption.
  apply Fval_cross; [apply Hf | apply Hg | exact H].
Qed.

(** X3.  On fractions in canonical form the four operations are exact: the
    rational value of the result is the sum, difference, product or
    quotient of the values of the operands. *)
Theorem fraction_ops_exact (a b : Fraction) :
  reduced a -> reduced b ->
  (exists f, Fraction_add a b = OK f /\ Fval f = (Fval a + Fval b)%Qc) /\
  (exists f, Fraction_sub a b = OK f /\ Fval f = (Fval a - Fval b)%Qc) /\
  (exists f, Fraction_mul a b = OK f /\ Fval f = (Fval a * Fval b)%Qc) /\
  (num b <> 0 ->
   exists f, Fraction_div a b = OK f /\ Fval f = (Fval a / Fval b)%Qc).
Proof.
  intros Ha Hb. repeat split.
  - destruct (Fraction_add_spec a b Ha Hb) as (f & E & _ & V). eauto.
  - destruct (Fraction_sub_spec a b Ha Hb) as (f & E & _ & V). eauto.
  - destruct (Fraction_mul_spec a b Ha Hb) as (f & E & _ & V). eauto.
  - intros Hn. destruct (Fraction_div_spec a b Ha Hb Hn) as (f & E & _ & V). eauto.
Qed.

Lemma fraction_ops_exact_witness :
  exists f, Fraction_add (mkFraction 1 2) (mkFraction 1 3) = OK f /\
            Fval f = (Fval (mkFraction 1 2) + Fval (mkFraction 1 3))%Qc.
Proof.
  apply (fraction_ops_exact (mkFraction 1 2) (mkFraction 1 3));
    split; [simpl; lia | reflexivity | simpl; lia | reflexivity].
Defined.

(** X4.  Two constructor calls with non-zero denominators build the same
    fraction exactly when they denote the same rational, that is when the
    cross products agree: the stored form is canonical. *)
Theorem Fraction_new_canonical (n1 d1 n2 d2 : Z) :
  d1 <> 0 -> d2 <> 0 ->
  (Fraction_new n1 d1 = Fraction_new n2 d2 <-> n1 * d2 = n2 * d1).
Proof.
  intros H1 H2.
  destruct (Fraction_new_spec n1 d1 H1) as (f1 & E1 & R1 & V1).
  destruct (Fraction_new_spec n2 d2 H2) as (f2 & E2 & R2 & V2).
  rewrite E1, E2. split.
  - intros E. injection E as <-. rewrite V1 in V2.
    apply ofZ_inj. rewrite !ofZ_mul.
    pose proof (ofZ_nonzero d1 H1). pose proof (ofZ_nonzero d2 H2).
    transitivity ((ofZ n1 / ofZ d1) * ofZ d1 * ofZ d2)%Qc; [field; assumption|].
    rewrite V2. field. assumption.
  - intros Hx. f_equal. apply reduced_Fval_inj; try assumption.
    rewrite V1, V2. apply ofZ_div_eq; assumption.
Qed.

Lemma Fraction_new_canonical_witness :
  Fraction_new 6 (-4) = Fraction_new (-3) 2.
Proof.
  apply (Fraction_new_canonical 6 (-4) (-3) 2); lia.
Defined.

(** X5.  Normalisation is idempotent: the constructor called on the
    numerator and denominator of a fraction in canonical form returns that
    very fraction. *)
Theorem Fraction_new_reduced (f : Fraction) :
  reduced f -> Fraction_new (num f) (den f) = OK f.
Proof.
  intros Hf.
  destruct (Fraction_new_spec (num f) (den f) (reduced_den_nonzero f Hf))
    as (g & E & R & V).
  rewrite E. f_equal. apply reduced_Fval_inj; try assumption.
  rewrite V. symmetry. apply Fval_div, Hf.
Qed.

Lemma Fraction_new_reduced_witness :
  Fraction_new (-3) 4 = OK (mkFraction (-3) 4).
Proof.
  apply (Fraction_new_reduced (mkFraction (-3) 4)).
  split; [simpl; lia | reflexivity].
Defined.

(** X6.  [Fraction.fromBigInt(n)] is the fraction n/1, for every integer. *)
Theorem Fraction_fromBigInt_spec (n : Z) :
  Fraction_fromBigInt n = OK (mkFraction n 1).
Proof.
  unfold Fraction_fromBigInt.
  destruct (Fraction_new_spec n 1 ltac:(lia)) as (g & E & R & V).
  rewrite E. f_equal. apply reduced_unique; try assumption.
  - split; [simpl; lia | simpl; apply Z.gcd_1_r].
  - simpl. apply Fval_cross with (g := mkFraction n 1);
      [apply R | simpl; lia |].
    rewrite V. symmetry. apply Fval_div. simpl. lia.
Qed.

(** X7.  Addition and multiplication do not depend on the order of their
    operands, for any two fraction objects. *)
Theorem Fraction_add_mul_comm (a b : Fraction) :
  Fraction_add a b = Fraction_add b a /\
  Fraction_mul a b = Fraction_mul b a.
Proof.
  unfold Fraction_add, Fraction_mul. cbv zeta.
  split; f_equal; ring.
Qed.

Lemma Fval_nonzero b : reduced b -> num b <> 0 -> Fval b <> 0%Qc.
Proof.
  intros Hb Hn H. apply Hn.
  assert (X : num b * den (mkFraction 0 1) = num (mkFraction 0 1) * den b).
  { apply Fval_cross; [apply Hb | simpl; lia | exact H]. }
  simpl in X. lia.
Qed.

(** Runs one operation of a chain, naming its result, the fact that it is
    canonical and its value. *)
Ltac run_op spec f R V :=
  let E := fresh "E" in
  destruct spec as (f & E & R & V); rewrite E; cbn [bind]; clear E.

(** X8.  On fractions in canonical form addition and multiplication are
    associative and multiplication distributes over addition, as equalities
    of the fraction objects returned. *)
Theorem Fraction_ring_laws (a b c : Fraction) :
  reduced a -> reduced b -> reduced c ->
  (ab <- Fraction_add a b ;; Fraction_add ab c)
  = (bc <- Fraction_add b c ;; Fraction_add a bc) /\
  (ab <- Fraction_mul a b ;; Fraction_mul ab c)
  = (bc <- Fraction_mul b c ;; Fraction_mul a bc) /\
  (bc <- Fraction_add b c ;; Fraction_mul a bc)
  = (ab <- Fraction_mul a b ;; ac <- Fraction_mul a c ;; Fraction_add ab ac).
Proof.
  intros Ha Hb Hc. repeat split.
  - run_op (Fraction_add_spec a b Ha Hb) ab Rab Vab.
    run_op (Fraction_add_spec ab c Rab Hc) l Rl Vl.
    run_op (Fraction_add_spec b c Hb Hc) bc Rbc Vbc.
    run_op (Fraction_add_spec a bc Ha Rbc) r Rr Vr.
    f_equal. apply reduced_Fval_inj; try assumption.
    rewrite Vl, Vr, Vab, Vbc. ring.
  - run_op (Fraction_mul_spec a b Ha Hb) ab Rab Vab.
    run_op (Fraction_mul_spec ab c Rab Hc) l Rl Vl.
    run_op (Fraction_mul_spec b c Hb Hc) bc Rbc Vbc.
    run_op (Fraction_mul_spec a bc Ha Rbc) r Rr Vr.
    f_equal. apply reduced_Fval_inj; try assumption.
    rewrite Vl, Vr, Vab, Vbc. ring.
  - run_op (Fraction_add_spec b c Hb Hc) bc Rbc Vbc.
    run_op (Fraction_mul_spec a bc Ha Rbc) l Rl Vl.
    run_op (Fraction_mul_spec a b Ha Hb) ab Rab Vab.
    run_op (Fraction_mul_spec a c Ha Hc) ac Rac Vac.
    run_op (Fraction_add_spec ab ac Rab Rac) r Rr Vr.
    f_equal. apply reduced_Fval_inj; try assumption.
    rewrite Vl, Vr, Vab, Vac, Vbc. ring.
Qed.

Lemma Fraction_ring_laws_witness :
  (bc <- Fraction_add (mkFraction 1 3) (mkFraction 1 6) ;;
   Fraction_mul (mkFraction 1 2) bc)
  = (ab <- Fraction_mul (mkFraction 1 2) (mkFraction 1 3) ;;
     ac <- Fraction_mul (mkFraction 1 2) (mkFraction 1 6) ;;
     Fraction_add ab ac).
Proof.
  apply (Fraction_ring_laws (mkFraction 1 2) (mkFraction 1 3) (mkFraction 1 6));
    split; solve [simpl; lia | reflexivity].
Defined.

(** X9.  On fractions in canonical form subtraction undoes addition and
    addition undoes subtraction, and for a non-zero second operand division
    undoes multiplication and conversely: the first operand comes back as
    the same fraction object. *)
Theorem Fraction_round_trips (a b : Fraction) :
  reduced a -> reduced b ->
  (s <- Fraction_add a b ;; Fraction_sub s b) = OK a /\
  (d <- Fraction_sub a b ;; Fraction_add d b) = OK a /\
  (num b <> 0 ->
   (p <- Fraction_mul a b ;; Fraction_div p b) = OK a /\
   (q <- Fraction_div a b ;; Fraction_mul q b) = OK a).
Proof.
  intros Ha Hb. split; [|split; [|intros Hn; split]].
  - run_op (Fraction_add_spec a b Ha Hb) s Rs Vs.
    run_op (Fraction_sub_spec s b Rs Hb) r Rr Vr.
    f_equal. apply reduced_Fval_inj; try assumption.
    rewrite Vr, Vs. ring.
  - run_op (Fraction_sub_spec a b Ha Hb) d Rd Vd.
    run_op (Fraction_add_spec d b Rd Hb) r Rr Vr.
    f_equal. apply reduced_Fval_inj; try assumption.
    rewrite Vr, Vd. ring.
  - pose proof (Fval_nonzero b Hb Hn) as Nb.
    run_op (Fraction_mul_spec a b Ha Hb) p Rp Vp.
    run_op (Fraction_div_spec p b Rp Hb Hn) r Rr Vr.
    f_equal. apply reduced_Fval_inj; try assumption.
    rewrite Vr, Vp. field. assumption.
  - pose proof (Fval_nonzero b Hb Hn) as Nb.
    run_op (Fraction_div_spec a b Ha Hb Hn) q Rq Vq.
    run_op (Fraction_mul_spec q b Rq Hb) r Rr Vr.
    f_equal. apply reduced_Fval_inj; try assumption.
    rewrite Vr, Vq. field. assumption.
Qed.

Lemma Fraction_round_trips_witness :
  (p <- Fraction_mul (mkFraction 2 3) (mkFraction (-9) 4) ;;
   Fraction_div p (mkFraction (-9) 4)) = OK (mkFraction 2 3).
Proof.
  assert (Ha : reduced (mkFraction 2 3)) by (split; [simpl; lia | reflexivity]).
  assert (Hb : reduced (mkFraction (-9) 4)) by (split; [simpl; lia | reflexivity]).
  destruct (Fraction_round_trips _ _ Ha Hb) as (_ & _ & H).
  apply H. simpl. lia.
Defined.

Lemma toIntegerStringIfExact_canonical (f : Fraction) :
  reduced f ->
  Fraction_toIntegerStringIfExact f
  = if den f =? 1 then OK (BigInt_toString (num f))
    else Err (Error ("Result is not integer: " ++ BigInt_toString (num f)
                       ++ "/" ++ BigInt_toString (den f))%string).
Proof.
  intros [Hd Hg]. unfold Fraction_toIntegerStringIfExact, Fraction_toString.
  destruct (Z.eqb_spec (den f) 1) as [H1|H1]; [reflexivity|].
  unfold BigInt_rem. destruct (Z.eqb_spec (den f) 0) as [|_]; [lia|].
  cbn [bind].
  destruct (Z.eqb_spec (Z.rem (num f) (den f)) 0) as [H0|H0]; [|reflexivity].
  exfalso. apply H1.
  apply Z.rem_divide in H0; [|lia].
  rewrite Z.gcd_abs_l in Hg.
  assert (D : (den f | Z.gcd (num f) (den f)))
    by (apply Z.gcd_greatest; [exact H0 | apply Z.divide_refl]).
  rewrite Hg in D. apply Z.divide_1_r_nonneg in D; lia.
Qed.

(** X10.  On a fraction in canonical form [toIntegerStringIfExact] returns
    the numerator's decimal string when the denominator is 1 and throws
    the not-integer error for every other denominator: the divisibility
    test never succeeds there. *)
Theorem toIntegerStringIfExact_reduced (f : Fraction) :
  reduced f ->
  Fraction_toIntegerStringIfExact f
  = if den f =? 1 then OK (BigInt_toString (num f))
    else Err (Error ("Result is not integer: " ++ BigInt_toString (num f)
                       ++ "/" ++ BigInt_toString (den f))%string).
Proof. apply toIntegerStringIfExact_canonical. Qed.

Lemma toIntegerStringIfExact_reduced_witness :
  Fraction_toIntegerStringIfExact (mkFraction (-5) 3)
  = Err (Error "Result is not integer: -5/3").
Proof.
  apply (toIntegerStringIfExact_reduced (mkFraction (-5) 3)).
  split; [simpl; lia | reflexivity].
Defined.

(* ================================================================= *)
(** ** Further properties: the decoder *)

Lemma isWhiteSpace_lowerChar c : isWhiteSpace (lowerChar c) = isWhiteSpace c.
Proof.
  destruct c as [[] [] [] [] [] [] [] []]; vm_compute; reflexivity.
Qed.

Lemma trimStart_lower s : toLowerCase (trimStart s) = trimStart (toLowerCase s).
Proof.
  induction s as [|c s IH]; [reflexivity|].
  cbn [trimStart toLowerCase]. rewrite isWhiteSpace_lowerChar.
  destruct (isWhiteSpace c); [exact IH | reflexivity].
Qed.

Lemma trimEnd_lower s : toLowerCase (trimEnd s) = trimEnd (toLowerCase s).
Proof.
  induction s as [|c s IH]; [reflexivity|].
  cbn [trimEnd toLowerCase]. rewrite <- IH, isWhiteSpace_lowerChar.
  destruct (trimEnd s); cbn [toLowerCase]; [|reflexivity].
  destruct (isWhiteSpace c); reflexivity.
Qed.

Lemma trim_lower s : toLowerCase (trim s) = trim (toLowerCase s).
Proof. unfold trim. rewrite trimEnd_lower, trimStart_lower. reflexivity. Qed.

Lemma trimStart_trimEnd s : trimStart (trimEnd s) = trimEnd (trimStart s).
Proof.
  induction s as [|c s IH]; [reflexivity|].
  cbn [trimEnd trimStart].
  destruct (isWhiteSpace c) eqn:Hc.
  - rewrite <- IH. destruct (trimEnd s); [reflexivity|].
    cbn [trimStart]. rewrite Hc. reflexivity.
  - cbn [trimEnd].
    destruct (trimEnd s); cbn [trimStart]; rewrite Hc; reflexivity.
Qed.

Lemma trimStart_space_app ws s :
  allChars isWhiteSpace ws = true -> trimStart (ws ++ s) = trimStart s.
Proof.
  induction ws as [|c ws IH]; intros H; [reflexivity|].
  cbn [allChars] in H. apply andb_prop in H. destruct H as [Hc Hws].
  cbn [append trimStart]. rewrite Hc. apply IH, Hws.
Qed.

Lemma trimEnd_space ws : allChars isWhiteSpace ws = true -> trimEnd ws = "".
Proof.
  induction ws as [|c ws IH]; intros H; [reflexivity|].
  cbn [allChars] in H. apply andb_prop in H. destruct H as [Hc Hws].
  cbn [trimEnd]. rewrite (IH Hws), Hc. reflexivity.
Qed.

Lemma trimEnd_app_space ws s :
  allChars isWhiteSpace ws = true -> trimEnd (s ++ ws) = trimEnd s.
Proof.
  intros H. induction s as [|c s IH].
  - cbn [append]. rewrite trimEnd_space by assumption. reflexivity.
  - cbn [append trimEnd]. rewrite IH. reflexivity.
Qed.

Lemma trim_surrounded ws1 ws2 s :
  allChars isWhiteSpace ws1 = true -> allChars isWhiteSpace ws2 = true ->
  trim (ws1 ++ s ++ ws2) = trim s.
Proof.
  intros H1 H2. unfold trim.
  rewrite trimStart_space_app by assumption.
  rewrite <- !trimStart_trimEnd, trimEnd_app_space by assumption.
  reflexivity.
Qed.

(** X11.  The decoder looks at its value up to case and surrounding white
    space only: two values with the same lower-case form decode alike, and
    white space added before and after a value changes nothing, whether the
    decoding succeeds or throws. *)
Theorem decode_insensitive (s s' ws1 ws2 baseStr : string) :
  (toLowerCase s = toLowerCase s' ->
   decodeValueToBigInt s baseStr = decodeValueToBigInt s' baseStr) /\
  (allChars isWhiteSpace ws1 = true -> allChars isWhiteSpace ws2 = true ->
   decodeValueToBigInt (ws1 ++ s ++ ws2) baseStr
   = decodeValueToBigInt s baseStr).
Proof.
  unfold decodeValueToBigInt. cbv zeta. split.
  - intros H. rewrite !trim_lower, H. reflexivity.
  - intros H1 H2. rewrite trim_surrounded by assumption. reflexivity.
Qed.

Lemma decode_insensitive_witness :
  decodeValueToBigInt "aEd7" "15" = decodeValueToBigInt "AED7" "15" /\
  decodeValueToBigInt ("  " ++ "aEd7" ++ " ") "15"
  = decodeValueToBigInt "aEd7" "15".
Proof.
  split.
  - apply (proj1 (decode_insensitive "aEd7" "AED7" "" "" "15")). reflexivity.
  - apply (proj2 (decode_insensitive "aEd7" "" "  " " " "15")); reflexivity.
Defined.

Lemma length_toLowerCase s : String.length (toLowerCase s) = String.length s.
Proof. induction s as [|c s IH]; [reflexivity | simpl; rewrite IH; reflexivity]. Qed.

Lemma decode_loop_bounds b : forall s acc v,
  0 < b -> 0 <= acc -> decode_loop b s acc = OK v ->
  acc * b ^ Z.of_nat (String.length s) <= v
  < (acc + 1) * b ^ Z.of_nat (String.length s).
Proof.
  induction s as [|ch s IH]; intros acc v Hb Hacc H.
  - simpl in H. injection H as <-. simpl. lia.
  - cbn [decode_loop] in H. cbv zeta in H.
    set (c := charCode ch) in *.
    assert (Hstep : exists d, 0 <= d < b /\ decode_loop b s (acc * b + d) = OK v).
    { destruct ((48 <=? c) && (c <=? 57)) eqn:E1; cbn [bind] in H.
      - destruct (Z.geb_spec (c - 48) b); [discriminate|].
        exists (c - 48). split; [lia | exact H].
      - destruct ((97 <=? c) && (c <=? 122)) eqn:E2; cbn [bind] in H;
          [|discriminate].
        destruct (Z.geb_spec (c - 87) b); [discriminate|].
        exists (c - 87). split; [lia | exact H]. }
    destruct Hstep as (d & Hd & Hrec).
    apply IH in Hrec; [|assumption|nia].
    cbn [String.length]. rewrite Nat2Z.inj_succ, Z.pow_succ_r by lia.
    assert (0 < b ^ Z.of_nat (String.length s)) by (apply Z.pow_pos_nonneg; lia).
    nia.
Qed.

(** X12.  A decoded value is never negative, and it is below the base
    raised to the number of characters left after trimming; a success also
    means that the base was an integer from 2 to 36. *)
Theorem decode_value_bounds (s baseStr : string) (v : Z) :
  decodeValueToBigInt s baseStr = OK v ->
  exists base,
    Number_ofString baseStr = Some base /\ 2 <= base <= 36 /\
    0 <= v < base ^ Z.of_nat (String.length (trim s)).
Proof.
  unfold decodeValueToBigInt. cbv zeta.
  destruct (Number_ofString baseStr) as [base|]; [|discriminate].
  destruct (Z.geb_spec base 2); cbn [andb]; [|discriminate].
  destruct (Z.leb_spec base 36); [|discriminate].
  intros Hdec. exists base. split; [reflexivity|]. split; [lia|].
  apply decode_loop_bounds in Hdec; [|lia|lia].
  rewrite length_toLowerCase in Hdec. lia.
Qed.

Lemma decode_value_bounds_witness :
  exists base,
    Number_ofString "16" = Some base /\ 2 <= base <= 36 /\
    0 <= 255 < base ^ Z.of_nat (String.length (trim " ff")).
Proof.
  apply (decode_value_bounds " ff" "16" 255). reflexivity.
Defined.

Lemma decode_loop_step b ch s acc :
  decode_loop b (String ch s) acc
  = match lowerDigit ch with
    | None => Err (Error ("Invalid digit in value: " ++ String ch "")%string)
    | Some d =>
        if d >=? b then
          Err (Error ("Digit " ++ String ch "" ++ " not valid for base "
                        ++ Number_toString b)%string)
        else decode_loop b s (acc * b + d)
    end.
Proof.
  cbn [decode_loop]. unfold lowerDigit. cbv zeta.
  destruct ((48 <=? charCode ch) && (charCode ch <=? 57)); [reflexivity|].
  destruct ((97 <=? charCode ch) && (charCode ch <=? 122)); reflexivity.
Qed.

Lemma decode_loop_app b : forall s1 s2 acc,
  decode_loop b (s1 ++ s2) acc
  = (v <- decode_loop b s1 acc ;; decode_loop b s2 v).
Proof.
  induction s1 as [|ch s1 IH]; intros s2 acc; [reflexivity|].
  cbn [append]. rewrite !decode_loop_step.
  destruct (lowerDigit ch) as [d|]; [|reflexivity].
  destruct (d >=? b); [reflexivity | apply IH].
Qed.

Lemma decode_loop_shift b : forall s a1 a2 v,
  decode_loop b s a1 = OK v ->
  decode_loop b s a2 = OK (v + (a2 - a1) * b ^ Z.of_nat (String.length s)).
Proof.
  induction s as [|ch s IH]; intros a1 a2 v H.
  - simpl in H. injection H as <-. simpl. f_equal. lia.
  - rewrite decode_loop_step in *.
    destruct (lowerDigit ch) as [d|]; [|discriminate].
    destruct (d >=? b); [discriminate|].
    rewrite (IH _ (a2 * b + d) _ H). f_equal.
    cbn [String.length]. rewrite Nat2Z.inj_succ, Z.pow_succ_r by lia. ring.
Qed.

(** A failing loop stops at the first character that is no digit of the
    base. *)
Lemma decode_loop_failure b : forall s acc e,
  decode_loop b s acc = Err e ->
  exists pre ch post v,
    s = (pre ++ String ch post)%string /\ decode_loop b pre acc = OK v /\
    ((lowerDigit ch = None /\
      e = Error ("Invalid digit in value: " ++ String ch "")%string) \/
     (exists d, lowerDigit ch = Some d /\ b <= d /\
        e = Error ("Digit " ++ String ch "" ++ " not valid for base "
                     ++ Number_toString b)%string)).
Proof.
  induction s as [|ch s IH]; intros acc e H; [discriminate|].
  rewrite decode_loop_step in H.
  destruct (lowerDigit ch) as [d|] eqn:Hd.
  - destruct (Z.geb_spec d b) as [Hge|Hlt].
    + injection H as <-. exists "", ch, s, acc.
      repeat split. right. exists d. repeat split; [assumption | lia].
    + destruct (IH _ _ H) as (pre & ch' & post & v & -> & Hpre & Hcase).
      exists (String ch pre), ch', post, v. split; [reflexivity|].
      split; [|exact Hcase].
      rewrite decode_loop_step, Hd.
      destruct (Z.geb_spec d b); [lia | exact Hpre].
  - injection H as <-. exists "", ch, s, acc. repeat split. left.
    split; [assumption | reflexivity].
Qed.

Lemma allChars_app P s1 s2 :
  allChars P (s1 ++ s2) = allChars P s1 && allChars P s2.
Proof.
  induction s1 as [|c s1 IH]; [reflexivity|].
  cbn [append allChars]. rewrite IH, andb_assoc. reflexivity.
Qed.

Lemma toLowerCase_app s1 s2 :
  toLowerCase (s1 ++ s2) = (toLowerCase s1 ++ toLowerCase s2)%string.
Proof.
  induction s1 as [|c s1 IH]; [reflexivity|].
  cbn [append toLowerCase]. rewrite IH. reflexivity.
Qed.

(** X13.  Decoding is positional: for two values without white space that
    decode in the same base, the concatenation decodes to the first value
    shifted by as many digits as the second has, plus the second. *)
Theorem decode_concat (s1 s2 baseStr : string) (v1 v2 : Z) :
  allChars (fun c => negb (isWhiteSpace c)) s1 = true ->
  allChars (fun c => negb (isWhiteSpace c)) s2 = true ->
  decodeValueToBigInt s1 baseStr = OK v1 ->
  decodeValueToBigInt s2 baseStr = OK v2 ->
  exists base,
    Number_ofString baseStr = Some base /\
    decodeValueToBigInt (s1 ++ s2) baseStr
    = OK (v1 * base ^ Z.of_nat (String.length s2) + v2).
Proof.
  intros W1 W2. unfold decodeValueToBigInt. cbv zeta.
  destruct (Number_ofString baseStr) as [base|]; [|discriminate].
  destruct ((base >=? 2) && (base <=? 36)); [|discriminate].
  rewrite !trim_id by (rewrite ?allChars_app, ?W1, ?W2; reflexivity).
  intros H1 H2. exists base. split; [reflexivity|].
  rewrite toLowerCase_app, decode_loop_app, H1. cbn [bind].
  rewrite (decode_loop_shift _ _ 0 v1 _ H2), length_toLowerCase.
  f_equal. lia.
Qed.

Lemma decode_concat_witness :
  exists base,
    Number_ofString "16" = Some base /\
    decodeValueToBigInt ("e1" ++ "b5") "16"
    = OK (225 * base ^ Z.of_nat (String.length "b5") + 181).
Proof.
  apply (decode_concat "e1" "b5" "16" 225 181); reflexivity.
Defined.



(** X15.  Every failure of the decoder is one of three errors.  Besides the
    unsupported base, it is the error of the first character of the
    trimmed, lower-cased value that is not a digit of the base: the
    invalid-digit error when that character is not alphanumeric, the
    digit-out-of-range error when its digit value reaches the base. *)
Theorem decode_failure (s baseStr : string) (e : exn) :
  decodeValueToBigInt s baseStr = Err e ->
  e = Error ("Unsupported base: " ++ baseStr)%string \/
  exists base pre ch post v,
    Number_ofString baseStr = Some base /\ 2 <= base <= 36 /\
    toLowerCase (trim s) = (pre ++ String ch post)%string /\
    decode_loop base pre 0 = OK v /\
    ((lowerDigit ch = None /\
      e = Error ("Invalid digit in value: " ++ String ch "")%string) \/
     (exists d, lowerDigit ch = Some d /\ base <= d /\
        e = Error ("Digit " ++ String ch "" ++ " not valid for base "
                     ++ Number_toString base)%string)).
Proof.
  unfold decodeValueToBigInt. cbv zeta.
  destruct (Number_ofString baseStr) as [base|];
    [|intros H; injection H as <-; left; reflexivity].
  destruct (Z.geb_spec base 2) as [H2|H2]; cbn [andb];
    [|intros H; injection H as <-; left; reflexivity].
  destruct (Z.leb_spec base 36) as [H36|H36];
    [|intros H; injection H as <-; left; reflexivity].
  intros H. right. apply decode_loop_failure in H.
  destruct H as (pre & ch & post & v & E & Hpre & Hcase).
  exists base, pre, ch, post, v. repeat split; try assumption; lia.
Qed.

Lemma decode_failure_witness :
  Error "Digit 9 not valid for base 8" = Error "Unsupported base: 8" \/
  exists base pre ch post v,
    Number_ofString "8" = Some base /\ 2 <= base <= 36 /\
    toLowerCase (trim "129") = (pre ++ String ch post)%string /\
    decode_loop base pre 0 = OK v /\
    ((lowerDigit ch = None /\
      Error "Digit 9 not valid for base 8"
      = Error ("Invalid digit in value: " ++ String ch "")%string) \/
     (exists d, lowerDigit ch = Some d /\ base <= d /\
        Error "Digit 9 not valid for base 8"
        = Error ("Digit " ++ String ch "" ++ " not valid for base "
                   ++ Number_toString base)%string)).
Proof.
  apply (decode_failure "129" "8"). reflexivity.
Defined.

(* ================================================================= *)
(** ** Further properties: lagrangeAtZero *)

(** X16.  For pairwise distinct x, whatever the y, [lagrangeAtZero] returns
    the canonical fraction of the Lagrange sum at zero: the sum over i of
    y_i times the product over j other than i of (0 - x_j) / (x_i - x_j). *)
Theorem lagrangeAtZero_formula (points : list Point.t) :
  ~ duplicateX points ->
  exists f,
    lagrangeAtZero points = OK f /\ reduced f /\
    Fval f
    = lsum (fun i => ofZ (Point.x (at_index points i)))
           (fun i => ofZ (Point.y (at_index points i)))
           (seq 0 (List.length points)) (seq 0 (List.length points)) 0%Qc.
Proof.
  intros Hnd.
  destruct (lagrangeAtZero_cases points) as [(f & E & R & _ & V)|(_ & D)];
    [|contradiction].
  exists f. auto.
Qed.

Lemma lagrangeAtZero_formula_witness :
  exists f,
    lagrangeAtZero [Point.mk 1 1; Point.mk 2 2; Point.mk 4 5] = OK f /\
    reduced f /\
    Fval f
    = lsum (fun i => ofZ (Point.x (at_index [Point.mk 1 1; Point.mk 2 2; Point.mk 4 5] i)))
           (fun i => ofZ (Point.y (at_index [Point.mk 1 1; Point.mk 2 2; Point.mk 4 5] i)))
           (seq 0 3) (seq 0 3) 0%Qc.
Proof.
  apply (lagrangeAtZero_formula [Point.mk 1 1; Point.mk 2 2; Point.mk 4 5]).
  apply duplicateX_NoDup. simpl. repeat constructor; simpl; intuition lia.
Defined.

Lemma distinct_nodes points :
  ~ duplicateX points ->
  forall i j, (i < List.length points)%nat -> (j < List.length points)%nat ->
    i <> j ->
    ofZ (Point.x (at_index points i)) <> ofZ (Point.x (at_index points j)).
Proof.
  intros D i j Hi Hj Hij E. apply ofZ_inj in E. apply D. exists i, j. auto.
Qed.

Lemma lsum_at_node points m :
  ~ duplicateX points -> (m < List.length points)%nat ->
  lsum (fun i => ofZ (Point.x (at_index points i)))
       (fun i => ofZ (Point.y (at_index points i)))
       (seq 0 (List.length points)) (seq 0 (List.length points))
       (ofZ (Point.x (at_index points m)))
  = ofZ (Point.y (at_index points m)).
Proof.
  intros D Hm.
  pose proof (lsum_node (fun i => ofZ (Point.x (at_index points i)))
                (fun i => ofZ (Point.y (at_index points i)))
                (List.length points) (distinct_nodes points D) m
                (seq 0 (List.length points)) Hm (seq_NoDup _ _)) as HN.
  cbv beta in HN. rewrite HN.
  - destruct (in_dec Nat.eq_dec m (seq 0 (List.length points))) as [_|H];
      [reflexivity|].
    exfalso. apply H, in_seq. lia.
  - intros i Hi. apply in_seq in Hi. lia.
Qed.

(** X17.  When one of the points, with pairwise distinct x, sits at x = 0,
    [lagrangeAtZero] returns that point's y over 1. *)
Theorem lagrangeAtZero_zero_node (points : list Point.t) (p : Point.t) :
  ~ duplicateX points -> In p points -> Point.x p = 0 ->
  lagrangeAtZero points = OK (mkFraction (Point.y p) 1).
Proof.
  intros D Hin Hx.
  destruct (lagrangeAtZero_cases points) as [(f & E & R & _ & V)|(_ & D')];
    [|contradiction].
  rewrite E. f_equal. apply Fval_integer; [exact R|].
  destruct (In_nth _ _ (Point.mk 0 0) Hin) as (m & Hm & Hnth).
  fold (at_index points m) in Hnth.
  pose proof (lsum_at_node points m D Hm) as HN.
  rewrite Hnth, Hx in HN. rewrite V. exact HN.
Qed.

Lemma lagrangeAtZero_zero_node_witness :
  lagrangeAtZero [Point.mk 2 9; Point.mk 0 5; Point.mk (-1) 7]
  = OK (mkFraction 5 1).
Proof.
  apply (lagrangeAtZero_zero_node
           [Point.mk 2 9; Point.mk 0 5; Point.mk (-1) 7] (Point.mk 0 5)).
  - apply duplicateX_NoDup. simpl. repeat constructor; simpl; intuition lia.
  - simpl. auto.
  - reflexivity.
Defined.

Lemma at_index_in points i :
  (i < List.length points)%nat -> In (at_index points i) points.
Proof. intros Hi. apply nth_In, Hi. Qed.

Lemma duplicateX_permutation points points' :
  Permutation points points' -> ~ duplicateX points -> ~ duplicateX points'.
Proof.
  intros HP N. apply duplicateX_NoDup. apply duplicateX_NoDup in N.
  apply (Permutation_NoDup (Permutation_map Point.x HP) N).
Qed.

(** X18.  The result does not depend on the order of the points: on a
    permutation of its argument [lagrangeAtZero] returns the same fraction,
    or throws the same duplicate-x error. *)
Theorem lagrangeAtZero_permutation (points points' : list Point.t) :
  Permutation points points' ->
  lagrangeAtZero points = lagrangeAtZero points'.
Proof.
  intros HP.
  destruct (lagrangeAtZero_cases points) as [(f & E & R & N & V)|(E & D)];
    destruct (lagrangeAtZero_cases points') as [(f' & E' & R' & N' & V')|(E' & D')].
  - rewrite E, E'. f_equal. apply reduced_Fval_inj; try assumption.
    rewrite V, V'.
    pose proof (Permutation_length HP) as HL.
    destruct (lsum_is_poly
                (fun i => ofZ (Point.x (at_index points' i)))
                (fun i => ofZ (Point.y (at_index points' i)))
                (List.length points') (seq 0 (List.length points')))
      as (c & Lc & Hc).
    { intros i Hi. apply in_seq in Hi. lia. }
    rewrite <- Hc.
    apply lagrange_interpolation.
    + apply distinct_nodes, N.
    + lia.
    + intros i Hi. rewrite Hc.
      pose proof (Permutation_in _ HP (at_index_in points i Hi)) as Hin.
      destruct (In_nth _ _ (Point.mk 0 0) Hin) as (m & Hm & Hnth).
      fold (at_index points' m) in Hnth.
      pose proof (lsum_at_node points' m N' Hm) as HN.
      rewrite Hnth in HN. symmetry. exact HN.
  - exfalso. exact (duplicateX_permutation _ _ HP N D').
  - exfalso. exact (duplicateX_permutation _ _ (Permutation_sym HP) N' D).
  - rewrite E, E'. reflexivity.
Qed.

Lemma lagrangeAtZero_permutation_witness :
  lagrangeAtZero [Point.mk 1 4; Point.mk 2 7; Point.mk 3 12]
  = lagrangeAtZero [Point.mk 2 7; Point.mk 1 4; Point.mk 3 12].
Proof.
  apply lagrangeAtZero_permutation. apply perm_swap.
Defined.

(* ================================================================= *)
(** ** Further properties: sorting and selection *)

Section SortFacts.
Context {A : Type} (compareFn : A -> A -> Z) (key : A -> Z).
Hypothesis compare_key :
  forall a b, (compareFn a b <=? 0) = true <-> key a <= key b.

Lemma insert_perm a l : Permutation (a :: l) (insert compareFn a l).
Proof.
  induction l as [|b l IH]; [reflexivity|].
  cbn [insert]. destruct (compareFn a b <=? 0); [reflexivity|].
  rewrite perm_swap. apply perm_skip, IH.
Qed.

Lemma Array_sort_perm l : Permutation l (Array_sort compareFn l).
Proof.
  induction l as [|a l IH]; [reflexivity|].
  cbn [Array_sort fold_right]. fold (Array_sort compareFn l).
  rewrite <- insert_perm. apply perm_skip, IH.
Qed.

Lemma insert_sorted a l :
  StronglySorted (fun u v => key u <= key v) l ->
  StronglySorted (fun u v => key u <= key v) (insert compareFn a l).
Proof.
  induction l as [|b l IH]; intros Hs.
  - repeat constructor.
  - cbn [insert]. inversion Hs as [|? ? Hs' Hb]; subst.
    destruct (compareFn a b <=? 0) eqn:E.
    + apply compare_key in E. constructor; [exact Hs|].
      constructor; [exact E|].
      rewrite Forall_forall in *. intros c Hc. specialize (Hb c Hc). lia.
    + assert (Hba : key b < key a).
      { destruct (Z.le_gt_cases (key a) (key b)) as [H|H]; [|lia].
        apply compare_key in H. congruence. }
      constructor; [apply IH, Hs'|].
      rewrite Forall_forall in *. intros c Hc.
      apply (Permutation_in _ (Permutation_sym (insert_perm a l))) in Hc.
      destruct Hc as [<-|Hc]; [lia | auto].
Qed.

Lemma Array_sort_sorted l :
  StronglySorted (fun u v => key u <= key v) (Array_sort compareFn l).
Proof.
  induction l as [|a l IH]; [constructor|].
  cbn [Array_sort fold_right]. apply insert_sorted, IH.
Qed.

Lemma insert_filter k0 a l :
  filter (fun e => key e =? k0) (insert compareFn a l)
  = filter (fun e => key e =? k0) (a :: l).
Proof.
  induction l as [|b l IH]; [reflexivity|].
  cbn [insert]. destruct (compareFn a b <=? 0) eqn:E; [reflexivity|].
  assert (Hba : key b < key a).
  { destruct (Z.le_gt_cases (key a) (key b)) as [H|H]; [|lia].
    apply compare_key in H. congruence. }
  cbn [filter] in *. rewrite IH.
  destruct (Z.eqb_spec (key a) k0); destruct (Z.eqb_spec (key b) k0);
    try reflexivity; lia.
Qed.

Lemma Array_sort_stable k0 l :
  filter (fun e => key e =? k0) (Array_sort compareFn l)
  = filter (fun e => key e =? k0) l.
Proof.
  induction l as [|a l IH]; [reflexivity|].
  cbn [Array_sort fold_right]. fold (Array_sort compareFn l).
  rewrite insert_filter. cbn [filter]. rewrite IH. reflexivity.
Qed.
End SortFacts.

Lemma compareEntries_key a b :
  (compareEntries a b <=? 0) = true <-> Entry.x a <= Entry.x b.
Proof.
  unfold compareEntries.
  destruct (Z.ltb_spec (Entry.x a) (Entry.x b));
    [|destruct (Z.gtb_spec (Entry.x a) (Entry.x b))]; simpl; split;
    intros; try lia; try reflexivity; discriminate.
Qed.

(** X19.  The sort applied to the entries with the script's comparator
    rearranges them, leaves them in ascending order of x, and keeps entries
    of equal x in the order they had. *)
Theorem sort_entries_spec (entries : list Entry.t) :
  Permutation entries (Array_sort compareEntries entries) /\
  StronglySorted (fun a b => Entry.x a <= Entry.x b)
    (Array_sort compareEntries entries) /\
  (forall x0,
     filter (fun e => Entry.x e =? x0) (Array_sort compareEntries entries)
     = filter (fun e => Entry.x e =? x0) entries).
Proof.
  split; [apply Array_sort_perm|]. split.
  - apply (Array_sort_sorted compareEntries Entry.x compareEntries_key).
  - intros x0.
    apply (Array_sort_stable compareEntries Entry.x compareEntries_key).
Qed.

Lemma choose_length entries k :
  List.length (choose entries k)
  = Nat.min (Z.to_nat k) (List.length entries).
Proof.
  unfold choose. cbv zeta. rewrite length_map, length_firstn.
  rewrite <- (Permutation_length (Array_sort_perm compareEntries entries)).
  reflexivity.
Qed.

Lemma choose_in entries k p :
  In p (choose entries k) ->
  exists e, In e entries /\ p = Point.mk (Entry.x e) (Entry.y e).
Proof.
  unfold choose. cbv zeta. intros H. apply in_map_iff in H.
  destruct H as (e & <- & He). exists e. split; [|reflexivity].
  apply (Permutation_in _ (Permutation_sym (Array_sort_perm compareEntries entries))).
  rewrite <- (firstn_skipn (Z.to_nat k)). apply in_or_app. left. exact He.
Qed.

Lemma StronglySorted_app_inv {A} (R : A -> A -> Prop) l1 l2 :
  StronglySorted R (l1 ++ l2) ->
  StronglySorted R l1 /\ forall a b, In a l1 -> In b l2 -> R a b.
Proof.
  induction l1 as [|c l1 IH]; intros H.
  - split; [constructor | intros a b []].
  - cbn [app] in H. inversion H as [|? ? Hs Hc]; subst.
    destruct (IH Hs) as [S1 Hab]. split.
    + constructor; [exact S1|]. rewrite Forall_forall in *.
      intros d Hd. apply Hc, in_or_app. left. exact Hd.
    + intros a b [<-|Ha] Hb; [|auto].
      rewrite Forall_forall in Hc. apply Hc, in_or_app. right. exact Hb.
Qed.

Lemma sorted_points l :
  StronglySorted (fun a b => Entry.x a <= Entry.x b) l ->
  StronglySorted (fun p q => Point.x p <= Point.x q)
    (map (fun e => Point.mk (Entry.x e) (Entry.y e)) l).
Proof.
  induction 1 as [|e l Hs IH Hall]; [constructor|].
  cbn [map]. constructor; [exact IH|].
  rewrite Forall_forall in *. intros q Hq. apply in_map_iff in Hq.
  destruct Hq as (e' & <- & He'). simpl. apply Hall, He'.
Qed.

(** X20.  The selection keeps as many points as [k] asks for, or all of
    them when there are fewer; the points kept are in ascending order of x,
    each of them carries the x and y of a collected entry, and no entry
    left out has an x below the x of a point kept. *)
Theorem choose_spec (entries : list Entry.t) (k : Z) :
  List.length (choose entries k) = Nat.min (Z.to_nat k) (List.length entries) /\
  StronglySorted (fun p q => Point.x p <= Point.x q) (choose entries k) /\
  (forall p, In p (choose entries k) ->
     exists e, In e entries /\ p = Point.mk (Entry.x e) (Entry.y e)) /\
  exists kept rest,
    Permutation entries (kept ++ rest) /\
    choose entries k = map (fun e => Point.mk (Entry.x e) (Entry.y e)) kept /\
    forall e r, In e kept -> In r rest -> Entry.x e <= Entry.x r.
Proof.
  split; [apply choose_length|].
  pose proof (Array_sort_sorted compareEntries Entry.x compareEntries_key entries)
    as Hsorted.
  rewrite <- (firstn_skipn (Z.to_nat k)) in Hsorted.
  apply StronglySorted_app_inv in Hsorted. destruct Hsorted as [Hs Hle].
  split; [|split; [intros p; apply choose_in|]].
  - unfold choose. cbv zeta. apply sorted_points, Hs.
  - exists (firstn (Z.to_nat k) (Array_sort compareEntries entries)),
           (skipn (Z.to_nat k) (Array_sort compareEntries entries)).
    split; [|split; [reflexivity | exact Hle]].
    rewrite firstn_skipn. apply Array_sort_perm.
Qed.

(* ================================================================= *)
(** ** Further properties: collection and main *)

Lemma collect_no_throw members : forall keys acc,
  (forall key ex, In key keys -> collect_one members key <> Thrown ex) ->
  collect members keys acc = OK (acc ++ flat_map (pushed members) keys).
Proof.
  induction keys as [|key keys IH]; intros acc H.
  - simpl. rewrite app_nil_r. reflexivity.
  - cbn [collect flat_map]. unfold pushed at 1.
    assert (H' : forall k ex, In k keys -> collect_one members k <> Thrown ex)
      by (intros k ex Hk; apply H; right; exact Hk).
    destruct (collect_one members key) as [|e|ex] eqn:E.
    + apply IH, H'.
    + rewrite IH by exact H'. rewrite <- app_assoc. reflexivity.
    + exfalso. apply (H key ex); [left; reflexivity | exact E].
Qed.

Lemma collect_first_throw members : forall pre key post ex acc,
  (forall k ex', In k pre -> collect_one members k <> Thrown ex') ->
  collect_one members key = Thrown ex ->
  collect members (pre ++ key :: post) acc = Err ex.
Proof.
  induction pre as [|k0 pre IH]; intros key post ex acc Hpre Hkey.
  - cbn [app collect]. rewrite Hkey. reflexivity.
  - cbn [app collect].
    assert (H' : forall k ex', In k pre -> collect_one members k <> Thrown ex')
      by (intros k ex' Hk; apply Hpre; right; exact Hk).
    destruct (collect_one members k0) as [|e|ex0] eqn:E.
    + apply IH; assumption.
    + apply IH; assumption.
    + exfalso. apply (Hpre k0 ex0); [left; reflexivity | exact E].
Qed.

(** X21.  When no key throws, the collection loop returns the entries of
    the keys that pass, in the order of the keys; otherwise it throws the
    exception of the first key that throws, even if later keys are fine. *)
Theorem collect_spec (members : list (string * json)) (keys : list string) :
  ((forall key ex, In key keys -> collect_one members key <> Thrown ex) ->
   collect members keys [] = OK (flat_map (pushed members) keys)) /\
  (forall pre key post ex,
     keys = pre ++ key :: post ->
     (forall k ex', In k pre -> collect_one members k <> Thrown ex') ->
     collect_one members key = Thrown ex ->
     collect members keys [] = Err ex).
Proof.
  split.
  - intros H. apply (collect_no_throw members keys [] H).
  - intros pre key post ex -> Hpre Hkey. apply collect_first_throw; assumption.
Qed.

Lemma collect_spec_witness :
  collect [("1", JObj [("base", JStr "2"); ("value", JStr "12")]);
           ("2", JObj [("base", JStr "2"); ("value", JStr "11")])]
    ["2"; "1"; "2"] []
  = Err (Error "Digit 2 not valid for base 2").
Proof.
  apply (proj2 (collect_spec _ ["2"; "1"; "2"]) ["2"] "1" ["2"]).
  - reflexivity.
  - intros k ex' [<-|[]]. discriminate.
  - reflexivity.
Defined.

Lemma decode_nonneg s baseStr v :
  decodeValueToBigInt s baseStr = OK v -> 0 <= v.
Proof.
  unfold decodeValueToBigInt. cbv zeta.
  destruct (Number_ofString baseStr) as [base|]; [|discriminate].
  destruct (Z.geb_spec base 2); cbn [andb]; [|discriminate].
  destruct (base <=? 36); [|discriminate].
  intros Hdec. apply decode_loop_bounds in Hdec; lia.
Qed.

(** X22.  Every entry that the loop pushes for a key comes from an object
    stored under that key, which is not the metadata key: the entry keeps
    the key, its x is the BigInt the key converts to, and its y is the
    decoded value of the object's fields, never negative. *)
Theorem collect_one_pushed (members : list (string * json)) (key : string)
    (e : Entry.t) :
  collect_one members key = Pushed e ->
  key <> "keys" /\ Entry.rawKey e = key /\
  BigInt_ofString key = OK (Entry.x e) /\ 0 <= Entry.y e /\
  exists obj base value,
    lookup key members = Some obj /\
    member "base" obj = Some base /\ member "value" obj = Some value /\
    decodeValueToBigInt (String_of value) (String_of base) = OK (Entry.y e).
Proof.
  unfold collect_one.
  destruct (String.eqb_spec key "keys") as [|Hkey]; [discriminate|].
  destruct (lookup key members) as [obj|] eqn:L; [|discriminate].
  unfold has_member.
  destruct (isObject obj); cbn [negb orb]; [|discriminate].
  destruct (member "base" obj) as [base|] eqn:Eb; cbn [negb orb]; [|discriminate].
  destruct (member "value" obj) as [value|] eqn:Ev; cbn [negb orb]; [|discriminate].
  cbn [String_ofOpt].
  destruct (BigInt_ofString key) as [x0|]; [|discriminate].
  destruct (decodeValueToBigInt (String_of value) (String_of base)) as [y0|] eqn:D;
    [|discriminate].
  intros H. injection H as <-. cbn [Entry.rawKey Entry.x Entry.y].
  split; [exact Hkey|]. split; [reflexivity|]. split; [reflexivity|].
  split; [apply (decode_nonneg _ _ _ D)|].
  exists obj, base, value. auto.
Qed.

Lemma collect_one_pushed_witness :
  "6" <> "keys" /\ Entry.rawKey (Entry.mk 6 39 "6") = "6" /\
  BigInt_ofString "6" = OK (Entry.x (Entry.mk 6 39 "6")) /\
  0 <= Entry.y (Entry.mk 6 39 "6") /\
  exists obj base value,
    lookup "6" scenarioB_members = Some obj /\
    member "base" obj = Some base /\ member "value" obj = Some value /\
    decodeValueToBigInt (String_of value) (String_of base)
    = OK (Entry.y (Entry.mk 6 39 "6")).
Proof.
  apply (collect_one_pushed scenarioB_members "6" (Entry.mk 6 39 "6")).
  reflexivity.
Defined.

Lemma compute_secret_duplicate chosen :
  duplicateX chosen ->
  compute_secret chosen
  = Exited "Error computing secret: Duplicate x values encountered".
Proof.
  intros D. unfold compute_secret.
  destruct (lagrangeAtZero_cases chosen) as [(f & _ & _ & N & _)|(E & _)];
    [contradiction|].
  rewrite E. reflexivity.
Qed.

(** X23.  The try block ends in one of three ways, and lets no exception
    out: with the duplicate-x message when two chosen points share an x;
    otherwise with the numerator printed when the interpolated fraction
    has denominator 1, and with the not-integer message showing
    numerator/denominator when it has not. *)
Theorem compute_secret_outcomes (chosen : list Point.t) :
  (duplicateX chosen ->
   compute_secret chosen
   = Exited "Error computing secret: Duplicate x values encountered") /\
  (~ duplicateX chosen ->
   exists f,
     lagrangeAtZero chosen = OK f /\ reduced f /\
     compute_secret chosen
     = if den f =? 1 then Logged (BigInt_toString (num f))
       else Exited ("Error computing secret: Result is not integer: "
                      ++ BigInt_toString (num f) ++ "/"
                      ++ BigInt_toString (den f))%string).
Proof.
  split; [apply compute_secret_duplicate|].
  intros N. unfold compute_secret.
  destruct (lagrangeAtZero_cases chosen) as [(f & E & R & _ & _)|(_ & D)];
    [|contradiction].
  exists f. split; [exact E|]. split; [exact R|].
  rewrite E. cbn [bind]. rewrite (toIntegerStringIfExact_canonical f R).
  destruct (den f =? 1); reflexivity.
Qed.

Lemma compute_secret_outcomes_witness :
  compute_secret [Point.mk 1 4; Point.mk 1 7]
  = Exited "Error computing secret: Duplicate x values encountered".
Proof.
  apply (proj1 (compute_secret_outcomes [Point.mk 1 4; Point.mk 1 7])).
  exists 0%nat, 1%nat. simpl. repeat split; lia.
Defined.

Lemma lagrangeAtZero_on_polynomial (points : list Point.t) (coeffs : list Z) :
  ~ duplicateX points ->
  (List.length coeffs <= List.length points)%nat ->
  sampled coeffs points ->
  lagrangeAtZero points = OK (mkFraction (constantTerm coeffs) 1).
Proof.
  intros D Hlen Hs.
  destruct (lagrangeAtZero_cases points) as [(f & E & R & _ & V)|(_ & D')];
    [|contradiction].
  rewrite E. f_equal. apply Fval_integer; [exact R|]. rewrite V.
  rewrite lagrange_interpolation with (c := map ofZ coeffs).
  - change 0%Qc with (ofZ 0). rewrite peval_ofZ, polyEval_0. reflexivity.
  - apply distinct_nodes, D.
  - rewrite length_map. exact Hlen.
  - intros i Hi. rewrite peval_ofZ. f_equal. apply Hs, at_index_in, Hi.
Qed.

Lemma NoDup_firstn {A} n (l : list A) : NoDup l -> NoDup (firstn n l).
Proof.
  intros H. rewrite <- (firstn_skipn n l) in H.
  apply NoDup_app_remove_r in H. exact H.
Qed.

Lemma choose_NoDup entries k :
  NoDup (map Entry.x entries) -> NoDup (map Point.x (choose entries k)).
Proof.
  intros H. unfold choose. cbv zeta. rewrite map_map. cbn [Point.x].
  rewrite <- firstn_map. apply NoDup_firstn.
  apply (Permutation_NoDup
           (Permutation_map Entry.x (Array_sort_perm compareEntries entries)) H).
Qed.

(** X24.  End to end: with well-formed metadata and a collection loop that
    ran to its end, if at least [k] entries were collected, their x are
    pairwise distinct and all of them lie on one integer polynomial with at
    most [k] coefficients, then [main] prints the decimal string of the
    polynomial's constant term, however many entries there are beyond [k]
    and whatever the declared [n]. *)
Theorem main_recovers_secret members keys n k entries (coeffs : list Z) :
  lookup "keys" members = Some keys ->
  isObject keys = true ->
  Number_of (member "n" keys) = Some n ->
  Number_of (member "k" keys) = Some k ->
  0 < k ->
  collect members (Object_keys members) [] = OK entries ->
  k <= Z.of_nat (List.length entries) ->
  NoDup (map Entry.x entries) ->
  (List.length coeffs <= Z.to_nat k)%nat ->
  (forall e, In e entries -> Entry.y e = polyEval coeffs (Entry.x e)) ->
  main (JObj members) = Logged (BigInt_toString (constantTerm coeffs)).
Proof.
  intros Hkeys Hobj Hn Hk Hpos Hcollect Hcount Hnd Hlen Hpoly.
  rewrite (main_after_collect members keys n k entries) by assumption.
  replace (Z.of_nat (List.length entries) <? k) with false by lia.
  unfold compute_secret.
  rewrite (lagrangeAtZero_on_polynomial (choose entries k) coeffs).
  - reflexivity.
  - apply duplicateX_NoDup, choose_NoDup, Hnd.
  - rewrite choose_length. lia.
  - intros p Hp. apply choose_in in Hp. destruct Hp as (e & He & ->).
    simpl. apply Hpoly, He.
Qed.

Lemma main_recovers_secret_witness : main scenarioB = Logged "3".
Proof.
  apply (main_recovers_secret scenarioB_members
           (JObj [("n", JNum 4); ("k", JNum 3)]) 4 3
           [Entry.mk 1 4 "1"; Entry.mk 2 7 "2"; Entry.mk 3 12 "3";
            Entry.mk 6 39 "6"] [3; 0; 1]);
    try reflexivity; try (simpl; lia).
  - simpl. repeat constructor; simpl; intuition lia.
  - intros e [<-|[<-|[<-|[<-|[]]]]]; reflexivity.
Defined.

Lemma filter_split_perm {A} (f : A -> bool) (l : list A) :
  Permutation (filter f l ++ filter (fun a => negb (f a)) l) l.
Proof.
  induction l as [|a l IH]; [reflexivity|].
  cbn [filter]. destruct (f a); cbn [negb app].
  - apply perm_skip, IH.
  - rewrite <- Permutation_middle. apply perm_skip, IH.
Qed.

Lemma Object_keys_perm members :
  Permutation (Object_keys members) (map fst members).
Proof.
  unfold Object_keys. cbv zeta.
  rewrite <- (filter_split_perm isArrayIndex (map fst members)) at 3.
  apply Permutation_app_tail, Permutation_sym, Array_sort_perm.
Qed.

Lemma collect_some_throw members : forall keys key ex,
  In key keys -> collect_one members key = Thrown ex ->
  exists key' ex',
    In key' keys /\ collect_one members key' = Thrown ex' /\
    forall acc, collect members keys acc = Err ex'.
Proof.
  induction keys as [|k0 keys IH]; intros key ex Hin Hthrow; [contradiction|].
  destruct (collect_one members k0) as [|e|ex0] eqn:E.
  - destruct Hin as [->|Hin]; [congruence|].
    destruct (IH key ex Hin Hthrow) as (key' & ex' & Hk & Ht & Hc).
    exists key', ex'. split; [right; exact Hk|]. split; [exact Ht|].
    intros acc. cbn [collect]. rewrite E. apply Hc.
  - destruct Hin as [->|Hin]; [congruence|].
    destruct (IH key ex Hin Hthrow) as (key' & ex' & Hk & Ht & Hc).
    exists key', ex'. split; [right; exact Hk|]. split; [exact Ht|].
    intros acc. cbn [collect]. rewrite E. apply Hc.
  - exists k0, ex0. split; [left; reflexivity|]. split; [exact E|].
    intros acc. cbn [collect]. rewrite E. reflexivity.
Qed.

(** X25.  One entry whose key does not convert or whose value does not
    decode aborts the run: with well-formed metadata, as soon as some key of
    the data makes the loop throw, [main] ends with an uncaught exception
    thrown for one of the keys, however many other entries are valid. *)
Theorem main_aborts_on_bad_entry members keys n k key ex :
  lookup "keys" members = Some keys ->
  isObject keys = true ->
  Number_of (member "n" keys) = Some n ->
  Number_of (member "k" keys) = Some k ->
  0 < k ->
  In key (map fst members) ->
  collect_one members key = Thrown ex ->
  exists key' ex',
    In key' (map fst members) /\ collect_one members key' = Thrown ex' /\
    main (JObj members) = Uncaught ex'.
Proof.
  intros Hkeys Hobj Hn Hk Hpos Hin Hthrow.
  apply (Permutation_in _ (Permutation_sym (Object_keys_perm members))) in Hin.
  destruct (collect_some_throw members _ key ex Hin Hthrow)
    as (key' & ex' & Hk' & Ht & Hc).
  exists key', ex'.
  split; [apply (Permutation_in _ (Object_keys_perm members)), Hk'|].
  split; [exact Ht|].
  unfold main. rewrite Hkeys, Hobj, Hn, Hk, Hc. cbn [negb].
  replace (k <=? 0) with false by lia. reflexivity.
Qed.

Lemma main_aborts_on_bad_entry_witness :
  exists key' ex',
    In key' (map fst [ ("keys", JObj [("n", JNum 2); ("k", JNum 1)]);
                       ("1", JObj [("base", JStr "10"); ("value", JStr "4")]);
                       ("2", JObj [("base", JStr "2"); ("value", JStr "12")]) ]) /\
    collect_one [ ("keys", JObj [("n", JNum 2); ("k", JNum 1)]);
                  ("1", JObj [("base", JStr "10"); ("value", JStr "4")]);
                  ("2", JObj [("base", JStr "2"); ("value", JStr "12")]) ] key'
    = Thrown ex' /\
    main (JObj [ ("keys", JObj [("n", JNum 2); ("k", JNum 1)]);
                 ("1", JObj [("base", JStr "10"); ("value", JStr "4")]);
                 ("2", JObj [("base", JStr "2"); ("value", JStr "12")]) ])
    = Uncaught ex'.
Proof.
  apply (main_aborts_on_bad_entry _ (JObj [("n", JNum 2); ("k", JNum 1)]) 2 1
           "2" (Error "Digit 2 not valid for base 2"));
    try reflexivity; simpl; auto; lia.
Defined.

Lemma bigGcd_is_gcd_witness : (6 | bigGcd 12 (-18)).
Proof.
  destruct (bigGcd_is_gcd 12 (-18)) as (_ & _ & _ & _ & H & _).
  apply H; [exists 2 | exists (-3)]; reflexivity.
Defined.

Lemma choose_spec_witness :
  exists e,
    In e [Entry.mk 5 1 "5"; Entry.mk 2 8 "2"] /\
    Point.mk 2 8 = Point.mk (Entry.x e) (Entry.y e).
Proof.
  destruct (choose_spec [Entry.mk 5 1 "5"; Entry.mk 2 8 "2"] 1)
    as (_ & _ & H & _).
  apply H. simpl. auto.
Defined.
